(** * Breakpad [BasicSourceLineResolver]: symbol modules, lookup and the
      binary module cache

    A shallow embedding of [basic_source_line_resolver.cc] and
    [equals.h]: the symbol-file parser ([Module::LoadMap] and the
    [Parse*] helpers), the address lookup ([Module::LookupAddress]), the
    structural comparison ([Equals]), the binary codec
    ([ModuleSerializer]) and the resolver's module table ([LoadModule]).

    Conventions.
    - [u_int32_t] / [u_int64_t] values are integers of [Z]; every place
      where the C++ code converts or wraps is written out with [u32],
      [u64], [to_int] or [to_long].
    - A [char] is a [Byte.byte]; a [std::string] and a C string are lists
      of bytes.
    - [linked_ptr<T>] and raw pointers that may be null are [option T].
    - [std::map<MemAddr, V>] is a list of pairs kept in increasing key
      order, the order in which its iterators visit it; [hash_map] and the
      resolver's table are [gmap]s.
    - An operation whose C++ behaviour is undefined (a read from an
      exhausted stream into an uninitialised variable, a null
      dereference) yields [None]. *)

From Stdlib Require Import ZArith List Lia Bool String Ascii.
From Stdlib.Strings Require Import Byte.
From stdpp Require Import base option list gmap strings.

Local Open Scope Z_scope.

(** ** Machine integers *)

Definition u32 (x : Z) : Z := x mod 2 ^ 32.
Definition u64 (x : Z) : Z := x mod 2 ^ 64.

(** Conversion to a signed 32-bit [int] and a signed 64-bit [long]
    (two's complement, as on the LP64 targets of the code). *)
Definition to_int (x : Z) : Z :=
  let y := x mod 2 ^ 32 in if y <? 2 ^ 31 then y else y - 2 ^ 32.
Definition to_long (x : Z) : Z :=
  let y := x mod 2 ^ 64 in if y <? 2 ^ 63 then y else y - 2 ^ 64.

Definition is_u32 (x : Z) : Prop := 0 <= x < 2 ^ 32.
Definition is_u64 (x : Z) : Prop := 0 <= x < 2 ^ 64.

(** ** Bytes *)

Definition Z_of_byte (b : byte) : Z := Z.of_N (Byte.to_N b).
Definition byte_of_Z (z : Z) : byte :=
  match Byte.of_N (Z.to_N (z mod 256)) with
  | Some b => b
  | None => x00
  end.

(** Native byte order of the writing host: little endian. *)
Fixpoint encode_le (n : nat) (x : Z) : list byte :=
  match n with
  | O => []
  | S n' => byte_of_Z x :: encode_le n' (x / 256)
  end.

Fixpoint decode_le (l : list byte) : Z :=
  match l with
  | [] => 0
  | b :: l' => Z_of_byte b + 256 * decode_le l'
  end.

(** The C view of a buffer: the characters before the first NUL. *)
Fixpoint until_nul (l : list byte) : list byte :=
  match l with
  | [] => []
  | b :: l' => if Byte.eqb b x00 then [] else b :: until_nul l'
  end.

Definition has_nul (l : list byte) : bool := existsb (Byte.eqb x00) l.

Definition nul_free (l : list byte) : Prop := Forall (fun b => b <> x00) l.

(** ** Streams

    An [ostream] is the list of bytes written so far, so a [Write] is the
    list of bytes it appends.  An [istream] computation consumes a prefix
    of the remaining bytes; [None] is a read past the end of the
    stream. *)

Definition istream (A : Type) : Type := list byte -> option (A * list byte).

Definition iret {A} (a : A) : istream A := fun s => Some (a, s).
Definition ibind {A B} (m : istream A) (k : A -> istream B) : istream B :=
  fun s => match m s with
           | Some (a, s') => k a s'
           | None => None
           end.

Notation "x <~ m ;; k" := (ibind m (fun x => k))
  (at level 100, m at next level, right associativity).

Definition read_bytes (n : nat) : istream (list byte) :=
  fun s => if (n <=? length s)%nat then Some (take n s, drop n s) else None.

(** ** [std::map<MemAddr, V>]

    The elements in iteration order (increasing key).  [map_insert] is
    [insert(make_pair(k, v))]: it leaves the map alone when the key is
    present. *)

Abbreviation stdmap V := (list (Z * V)) (only parsing).

Fixpoint map_find {V} (k : Z) (m : stdmap V) : option V :=
  match m with
  | [] => None
  | (k', v) :: m' => if k' =? k then Some v else map_find k m'
  end.

Fixpoint map_insert {V} (k : Z) (v : V) (m : stdmap V) : stdmap V :=
  match m with
  | [] => [(k, v)]
  | (k', v') :: m' =>
      if k <? k' then (k, v) :: m
      else if k =? k' then m
      else (k', v') :: map_insert k v m'
  end.

(** [lower_bound k]: the first element whose key is not less than [k];
    [None] is [end()]. *)
Fixpoint lower_bound {V} (k : Z) (m : stdmap V) : option (Z * V) :=
  match m with
  | [] => None
  | (k', v) :: m' => if k' <? k then lower_bound k m' else Some (k', v)
  end.

(** The element before [upper_bound k], that is the last element whose
    key is at most [k]; [None] when [upper_bound k] is [begin()]. *)
Fixpoint before_upper_bound {V} (k : Z) (m : stdmap V) : option (Z * V) :=
  match m with
  | [] => None
  | (k', v) :: m' =>
      if k' <=? k then
        match before_upper_bound k m' with
        | Some r => Some r
        | None => Some (k', v)
        end
      else None
  end.

(** Replaces the value stored under [k]; used where the C++ code mutates
    an object that the map shares through a [linked_ptr]. *)
Fixpoint map_update {V} (k : Z) (v : V) (m : stdmap V) : stdmap V :=
  match m with
  | [] => []
  | (k', v') :: m' =>
      if k' =? k then (k', v) :: m' else (k', v') :: map_update k v m'
  end.

(** Keys strictly increasing and above [lo]. *)
Fixpoint sorted_above {V} (lo : Z) (m : stdmap V) : Prop :=
  match m with
  | [] => True
  | (k, _) :: m' => lo < k /\ sorted_above k m'
  end.

Abbreviation linked_ptr T := (option T) (only parsing).

(** ** Data model *)

Record Line := mkLine {
  Line_address : Z;         (* MemAddr *)
  Line_size : Z;            (* MemAddr *)
  Line_source_file_id : Z;  (* u_int32_t *)
  Line_line : Z             (* u_int32_t *)
}.

(** [Line(MemAddr addr, MemAddr code_size, int file_id, int source_line)]:
    the two [int] arguments initialise [u_int32_t] members. *)
Definition new_Line (addr code_size file_id source_line : Z) : Line :=
  mkLine addr code_size (u32 file_id) (u32 source_line).

(** [RangeMap<AddressType, EntryType>]: [map_] is keyed by the high
    address of each range and holds [Range(base_, entry_)]. *)
Record Range (E : Type) := mkRange { Range_base_ : Z; Range_entry_ : E }.
Arguments mkRange {E}.
Arguments Range_base_ {E}.
Arguments Range_entry_ {E}.

Abbreviation RangeMap E := (stdmap (Range E)) (only parsing).

Record Function := mkFunction {
  Function_name : list byte;
  Function_address : Z;         (* MemAddr *)
  Function_size : Z;            (* MemAddr *)
  Function_parameter_size : Z;  (* u_int32_t *)
  Function_lines : RangeMap (linked_ptr Line)
}.

(** [Function(name, function_address, code_size, int set_parameter_size)];
    [lines] starts empty. *)
Definition new_Function (name : list byte) (address size set_parameter_size : Z)
  : Function :=
  mkFunction name address size (u32 set_parameter_size) [].

Record PublicSymbol := mkPublicSymbol {
  PublicSymbol_name : list byte;
  PublicSymbol_address : Z;        (* MemAddr *)
  PublicSymbol_parameter_size : Z  (* u_int32_t *)
}.

Definition new_PublicSymbol (name : list byte) (address set_parameter_size : Z)
  : PublicSymbol :=
  mkPublicSymbol name address (u32 set_parameter_size).

(** [AddressMap<AddressType, EntryType>]: [map_] keyed by address. *)
Abbreviation AddressMap E := (stdmap E) (only parsing).

Record StackFrameInfo := mkStackFrameInfo {
  valid : Z;
  prolog_size : Z;
  epilog_size : Z;
  parameter_size : Z;
  saved_register_size : Z;
  local_size : Z;
  max_stack_size : Z;
  allocates_base_pointer : bool;
  program_string : list byte
}.

(** Modelled from the spec: the validity constants of [StackFrameInfo]
    ([stack_frame_info.h] is not among the sources).  The valid mask is a
    bitfield in which [VALID_PARAMETER_SIZE] is one bit; a record built
    from a [STACK] line carries every bit. *)
Definition VALID_NONE : Z := 0.
Definition VALID_PARAMETER_SIZE : Z := 1.
Definition VALID_ALL : Z := 2 ^ 32 - 1.

(** Modelled from the spec: the two constructors of [StackFrameInfo] and
    [CopyFrom] ([stack_frame_info.h] is not among the sources).  The
    default constructor populates nothing; the full constructor populates
    every field; [CopyFrom] copies every field. *)
Definition default_StackFrameInfo : StackFrameInfo :=
  mkStackFrameInfo VALID_NONE 0 0 0 0 0 0 false [].

Definition new_StackFrameInfo
    (set_prolog_size set_epilog_size set_parameter_size
     set_saved_register_size set_local_size set_max_stack_size : Z)
    (set_allocates_base_pointer : Z) (set_program_string : list byte)
  : StackFrameInfo :=
  mkStackFrameInfo VALID_ALL set_prolog_size set_epilog_size
    set_parameter_size set_saved_register_size set_local_size
    set_max_stack_size (negb (set_allocates_base_pointer =? 0))
    set_program_string.

Definition CopyFrom (_ other : StackFrameInfo) : StackFrameInfo := other.

(** [ContainedRangeMap<AddressType, EntryType>]: [base_], [entry_] and
    [map_], a pointer (null when the node has no children) to a map from
    high address to child pointer. *)
#[local] Unset Elimination Schemes.
Inductive ContainedRangeMap : Type :=
  mkCRM (base_ : Z) (entry_ : linked_ptr StackFrameInfo)
        (map_ : option (stdmap (option ContainedRangeMap))).
#[local] Set Elimination Schemes.

Definition CRM_base_ (c : ContainedRangeMap) : Z :=
  match c with mkCRM b _ _ => b end.
Definition CRM_entry_ (c : ContainedRangeMap) : linked_ptr StackFrameInfo :=
  match c with mkCRM _ e _ => e end.
Definition CRM_map_ (c : ContainedRangeMap)
  : option (stdmap (option ContainedRangeMap)) :=
  match c with mkCRM _ _ m => m end.

(** [ContainedRangeMap()]: [base_()], [entry_()], [map_(NULL)]. *)
Definition new_ContainedRangeMap : ContainedRangeMap := mkCRM 0 None None.

(** The five slots of [stack_info_], indexed by [StackInfoTypes]. *)
Definition STACK_INFO_FPO : nat := 0.
Definition STACK_INFO_TRAP : nat := 1.
Definition STACK_INFO_TSS : nat := 2.
Definition STACK_INFO_STANDARD : nat := 3.
Definition STACK_INFO_FRAME_DATA : nat := 4.
Definition STACK_INFO_LAST : nat := 5.

#[global] Instance ContainedRangeMap_inhabited : Inhabited ContainedRangeMap :=
  populate new_ContainedRangeMap.

(** [BasicSourceLineResolver::Module] ([name_] plays no part in parsing,
    lookup, comparison or the codec). *)
Record SymbolModule := mkModule {
  name_ : string;
  files_ : gmap Z (list byte);                        (* FileMap *)
  functions_ : RangeMap (linked_ptr Function);
  public_symbols_ : AddressMap (linked_ptr PublicSymbol);
  stack_info_ : list ContainedRangeMap                (* [STACK_INFO_LAST] slots *)
}.

(** [Module(const string &name)]. *)
Definition new_Module (name : string) : SymbolModule :=
  mkModule name ∅ [] [] (replicate STACK_INFO_LAST new_ContainedRangeMap).

(** ** Container operations

    [range_map-inl.h], [address_map-inl.h] and [contained_range_map-inl.h]
    are not among the sources; the serializer and [equals.h] fix the
    representation ([map_], [base_], [entry_]) and the spec fixes the
    behaviour of the operations. *)

(** Modelled from the spec: [RangeMap::StoreRange] fails if the size is
    0, if base + size overflows the address type, or if the new interval
    intersects a stored one; on success the range is stored under its
    high address. *)
Definition RangeMap_StoreRange {E} (m : RangeMap E) (base size : Z) (entry : E)
  : bool * RangeMap E :=
  let high := base + size - 1 in
  if (size =? 0) || (2 ^ 64 <=? base + size) then (false, m)
  else if existsb (fun kr => (Range_base_ kr.2 <=? high) && (base <=? kr.1)) m
       then (false, m)
       else (true, map_insert high (mkRange base entry) m).

(** Modelled from the spec: [RangeMap::RetrieveRange] finds the first
    key at or above the address and checks that the range includes it;
    it yields the entry, the base and the size of the range. *)
Definition RangeMap_RetrieveRange {E} (m : RangeMap E) (address : Z)
  : option (E * Z * Z) :=
  match lower_bound address m with
  | Some (high, r) =>
      if address <? Range_base_ r then None
      else Some (Range_entry_ r, Range_base_ r, u64 (high - Range_base_ r + 1))
  | None => None
  end.

(** Modelled from the spec: [RangeMap::RetrieveNearestRange] yields the
    range with the greatest base at or below the address, whether or not
    the address is inside it. *)
Fixpoint nearest_below {E} (address : Z) (m : RangeMap E)
    (best : option (Z * Range E)) : option (Z * Range E) :=
  match m with
  | [] => best
  | (high, r) :: m' =>
      let better :=
        (Range_base_ r <=? address) &&
        match best with
        | Some (_, r') => Range_base_ r' <? Range_base_ r
        | None => true
        end in
      nearest_below address m' (if better then Some (high, r) else best)
  end.

Definition RangeMap_RetrieveNearestRange {E} (m : RangeMap E) (address : Z)
  : option (E * Z * Z) :=
  match nearest_below address m None with
  | Some (high, r) =>
      Some (Range_entry_ r, Range_base_ r, u64 (high - Range_base_ r + 1))
  | None => None
  end.

(** Modelled from the spec: [AddressMap::Store] fails on a duplicate
    key. *)
Definition AddressMap_Store {E} (m : AddressMap E) (address : Z) (entry : E)
  : bool * AddressMap E :=
  match map_find address m with
  | Some _ => (false, m)
  | None => (true, map_insert address entry m)
  end.

(** Modelled from the spec: [AddressMap::Retrieve] yields the entry with
    the greatest key at or below the address, and that key. *)
Definition AddressMap_Retrieve {E} (m : AddressMap E) (address : Z)
  : option (E * Z) :=
  match before_upper_bound address m with
  | Some (k, e) => Some (e, k)
  | None => None
  end.

(** A child pointer of a [ContainedRangeMap] is never null in a map built
    by [StoreRange]; the codec can read one from a stream.  The spec does
    not describe such a node, and an operation that meets a null child
    dereferences it: the model yields [None]. *)
Definition child_base (oc : option ContainedRangeMap) : Z :=
  match oc with Some c => CRM_base_ c | None => 0 end.

(** The child [(k, oc)] lies inside [base, high]. *)
Definition enclosed_by (base high : Z) (kc : Z * option ContainedRangeMap)
  : bool :=
  (base <=? child_base kc.2) && (kc.1 <=? high).

(** The child [(k, oc)] and [base, high] have an address in common. *)
Definition overlaps (base high : Z) (kc : Z * option ContainedRangeMap)
  : bool :=
  (child_base kc.2 <=? high) && (base <=? kc.1).

(** Modelled from the spec: [ContainedRangeMap::StoreRange] rejects size
    0 (and a range that leaves the address space); a range strictly
    inside a child is passed down to that child; a range equal to a child
    is rejected; a range that partly overlaps a child is rejected;
    otherwise the range becomes a new child at this level and the parent
    of the siblings it encloses.  A rejected store leaves the map as it
    was.

    [store_in_child store base high l] looks for the child of [l] that
    contains [base, high] and stores into it with [store]:
    [Some (Some (ok, l'))] is the outcome of that store,
    [Some None] says that no child contains the range. *)
Definition store_in_child
    (store : ContainedRangeMap -> option (bool * ContainedRangeMap))
    (base high : Z)
  : stdmap (option ContainedRangeMap) ->
    option (option (bool * stdmap (option ContainedRangeMap))) :=
  fix descend (l : stdmap (option ContainedRangeMap)) :=
    match l with
    | [] => Some None
    | (k, None) :: _ => None
    | (k, Some ch) :: l' =>
        if (CRM_base_ ch <=? base) && (high <=? k) then
          if (CRM_base_ ch =? base) && (k =? high)
          then Some (Some (false, l))
          else match store ch with
               | Some (ok, ch') => Some (Some (ok, (k, Some ch') :: l'))
               | None => None
               end
        else match descend l' with
             | Some (Some (ok, l'')) => Some (Some (ok, (k, Some ch) :: l''))
             | Some None => Some None
             | None => None
             end
    end.

(** The store of [base, high] among the children [children] of a node,
    none of which contains it. *)
Definition store_among (base high : Z) (entry : linked_ptr StackFrameInfo)
    (children : stdmap (option ContainedRangeMap))
  : option (stdmap (option ContainedRangeMap)) :=
  let inner := List.filter (enclosed_by base high) children in
  let outer :=
    List.filter (fun kc => negb (enclosed_by base high kc)) children in
  if existsb (overlaps base high) outer then None
  else
    let child_map := match inner with [] => None | _ => Some inner end in
    Some (map_insert high (Some (mkCRM base entry child_map)) outer).

Fixpoint CRM_store (c : ContainedRangeMap) (base high : Z)
    (entry : linked_ptr StackFrameInfo) {struct c}
  : option (bool * ContainedRangeMap) :=
  match c with
  | mkCRM b e m =>
      match m with
      | None =>
          Some (true, mkCRM b e (Some [(high, Some (mkCRM base entry None))]))
      | Some children =>
          match store_in_child (fun ch => CRM_store ch base high entry)
                  base high children with
          | None => None
          | Some (Some (ok, children')) => Some (ok, mkCRM b e (Some children'))
          | Some None =>
              match store_among base high entry children with
              | Some children' => Some (true, mkCRM b e (Some children'))
              | None => Some (false, c)
              end
          end
      end
  end.

Definition CRM_StoreRange (c : ContainedRangeMap) (base size : Z)
    (entry : linked_ptr StackFrameInfo)
  : option (bool * ContainedRangeMap) :=
  if (size =? 0) || (2 ^ 64 <=? base + size) then Some (false, c)
  else CRM_store c base (base + size - 1) entry.

(** Modelled from the spec: [ContainedRangeMap::RetrieveRange] descends
    from the root into the child whose interval contains the address and
    yields the entry of the deepest such node; at the root, with no child
    containing the address, it finds nothing.  The result [Some (Some e)]
    is a successful retrieval of the entry pointer [e], [Some None] is a
    [false] return.

    [retrieve_in_child retrieve address l] finds the first child of [l]
    whose high address is at or above [address] and retrieves from it
    with [retrieve]. *)
Definition retrieve_in_child
    (retrieve : ContainedRangeMap ->
                option (option (linked_ptr StackFrameInfo)))
    (address : Z)
  : stdmap (option ContainedRangeMap) ->
    option (option (linked_ptr StackFrameInfo)) :=
  fix go (l : stdmap (option ContainedRangeMap)) :=
    match l with
    | [] => Some None
    | (k, oc) :: l' =>
        if k <? address then go l'
        else match oc with
             | None => None
             | Some ch =>
                 if address <? CRM_base_ ch then Some None
                 else match retrieve ch with
                      | Some None => Some (Some (CRM_entry_ ch))
                      | r => r
                      end
             end
    end.

Fixpoint CRM_RetrieveRange (c : ContainedRangeMap) (address : Z) {struct c}
  : option (option (linked_ptr StackFrameInfo)) :=
  match c with
  | mkCRM _ _ m =>
      match m with
      | None => Some None
      | Some children =>
          retrieve_in_child (fun ch => CRM_RetrieveRange ch address)
            address children
      end
  end.

(** ** Structural comparison ([equals.h]) *)

#[global] Instance byte_eq_decision : EqDecision byte := Byte.byte_eq_dec.

(** The general case: [operator==]. *)
Definition Equals_string (a b : list byte) : bool := bool_decide (a = b).
Definition Equals_int (a b : Z) : bool := a =? b.

(** [Equals(const linked_ptr<U>&, const linked_ptr<U>&)]: the objects
    when both pointers are set, the raw pointers otherwise.  The same
    shape serves the overload on raw [ContainedRangeMap] pointers. *)
Definition Equals_linked_ptr {U} (Equals_U : U -> U -> bool)
    (a b : linked_ptr U) : bool :=
  match a, b with
  | Some x, Some y => Equals_U x y
  | None, None => true
  | _, _ => false
  end.

(** [Equals(const map<k, v>&, const map<k, v>&)]: same size, and every
    entry of [a] is found in [b] with an equal value. *)
Definition Equals_map {V} (Equals_V : V -> V -> bool) (a b : stdmap V) : bool :=
  if negb (length a =? length b)%nat then false
  else forallb (fun kv =>
                  match map_find kv.1 b with
                  | None => false
                  | Some found => Equals_V kv.2 found
                  end) a.

(** The [hash_map] overload, the same loop over the table. *)
Definition Equals_hash_map {V} (Equals_V : V -> V -> bool) (a b : gmap Z V)
  : bool :=
  if negb (size a =? size b)%nat then false
  else forallb (fun kv =>
                  match b !! kv.1 with
                  | None => false
                  | Some found => Equals_V kv.2 found
                  end) (map_to_list a).

(** [Line::operator==]. *)
Definition Equals_Line (a b : Line) : bool :=
  (Line_address a =? Line_address b) &&
  (Line_size a =? Line_size b) &&
  (Line_source_file_id a =? Line_source_file_id b) &&
  (Line_line a =? Line_line b).

(** [PublicSymbol::operator==]. *)
Definition Equals_PublicSymbol (a b : PublicSymbol) : bool :=
  Equals_string (PublicSymbol_name a) (PublicSymbol_name b) &&
  (PublicSymbol_address a =? PublicSymbol_address b) &&
  (PublicSymbol_parameter_size a =? PublicSymbol_parameter_size b).

(** Modelled from the spec: [Range::Equals] and [RangeMap::Equals]
    ([range_map-inl.h] is not among the sources) compare pairwise over
    base, size and value; with the ranges keyed by their high address
    that is the comparison of [map_] with bases and entries compared. *)
Definition Equals_Range {E} (Equals_E : E -> E -> bool) (a b : Range E) : bool :=
  (Range_base_ a =? Range_base_ b) &&
  Equals_E (Range_entry_ a) (Range_entry_ b).

Definition Equals_RangeMap {E} (Equals_E : E -> E -> bool) (a b : RangeMap E)
  : bool :=
  Equals_map (Equals_Range Equals_E) a b.

(** Modelled from the spec: [AddressMap::Equals] compares [map_]. *)
Definition Equals_AddressMap {E} (Equals_E : E -> E -> bool)
    (a b : AddressMap E) : bool :=
  Equals_map Equals_E a b.

(** [Equals(const Function&, const Function&)], as written in
    [basic_source_line_resolver.cc]: name, address, size and lines. *)
Definition Equals_Function (a b : Function) : bool :=
  Equals_string (Function_name a) (Function_name b) &&
  (Function_address a =? Function_address b) &&
  (Function_size a =? Function_size b) &&
  Equals_RangeMap (Equals_linked_ptr Equals_Line)
    (Function_lines a) (Function_lines b).

(** Modelled from the spec: [StackFrameInfo::operator==]
    ([stack_frame_info.h] is not among the sources) compares the valid
    mask, the sizes, [allocates_base_pointer] and the program string. *)
Definition Equals_StackFrameInfo (a b : StackFrameInfo) : bool :=
  (valid a =? valid b) &&
  (prolog_size a =? prolog_size b) &&
  (epilog_size a =? epilog_size b) &&
  (parameter_size a =? parameter_size b) &&
  (saved_register_size a =? saved_register_size b) &&
  (local_size a =? local_size b) &&
  (max_stack_size a =? max_stack_size b) &&
  Bool.eqb (allocates_base_pointer a) (allocates_base_pointer b) &&
  Equals_string (program_string a) (program_string b).

(** Modelled from the spec: [ContainedRangeMap::Equals]
    ([contained_range_map-inl.h] is not among the sources) compares
    [base_], [entry_] and the children, pointer against pointer as the
    [equals.h] overload for [ContainedRangeMap*] does. *)
Fixpoint Equals_ContainedRangeMap (a b : ContainedRangeMap) {struct a} : bool :=
  match a, b with
  | mkCRM ba ea ma, mkCRM bb eb mb =>
      (ba =? bb) &&
      Equals_linked_ptr Equals_StackFrameInfo ea eb &&
      match ma, mb with
      | Some la, Some lb =>
          if negb (length la =? length lb)%nat then false
          else forallb (fun kv =>
                          match map_find kv.1 lb with
                          | None => false
                          | Some found =>
                              match kv.2, found with
                              | Some x, Some y => Equals_ContainedRangeMap x y
                              | None, None => true
                              | _, _ => false
                              end
                          end) la
      | None, None => true
      | _, _ => false
      end
  end.

(** [BasicSourceLineResolver::Module::Equals]. *)
Definition Module_Equals (this other : SymbolModule) : bool :=
  Equals_hash_map Equals_string (files_ this) (files_ other) &&
  Equals_RangeMap (Equals_linked_ptr Equals_Function)
    (functions_ this) (functions_ other) &&
  Equals_AddressMap (Equals_linked_ptr Equals_PublicSymbol)
    (public_symbols_ this) (public_symbols_ other) &&
  Equals_ContainedRangeMap (stack_info_ this !!! STACK_INFO_FPO)
    (stack_info_ other !!! STACK_INFO_FPO) &&
  Equals_ContainedRangeMap (stack_info_ this !!! STACK_INFO_TRAP)
    (stack_info_ other !!! STACK_INFO_TRAP) &&
  Equals_ContainedRangeMap (stack_info_ this !!! STACK_INFO_TSS)
    (stack_info_ other !!! STACK_INFO_TSS) &&
  Equals_ContainedRangeMap (stack_info_ this !!! STACK_INFO_STANDARD)
    (stack_info_ other !!! STACK_INFO_STANDARD) &&
  Equals_ContainedRangeMap (stack_info_ this !!! STACK_INFO_FRAME_DATA)
    (stack_info_ other !!! STACK_INFO_FRAME_DATA).

(** ** [ModuleSerializer]: the binary codec *)

Definition SERIALIZE_FORMAT : Z := 1.

Definition Write_u32 (data : Z) : list byte := encode_le 4 data.
Definition Write_u64 (data : Z) : list byte := encode_le 8 data.

Definition Read_u32 : istream Z :=
  b <~ read_bytes 4 ;; iret (decode_le b).
Definition Read_u64 : istream Z :=
  b <~ read_bytes 8 ;; iret (decode_le b).

(** Strings: the padded length, the characters, the padding. *)
Definition Write_string (data : list byte) : list byte :=
  match data with
  | [] => Write_u32 0
  | _ =>
      let extra := u32 (4 - Z.of_nat (length data) mod 4) in
      Write_u32 (u32 (u32 (Z.of_nat (length data)) + extra))
        ++ data ++ replicate (Z.to_nat extra) x00
  end.

(** [data = &string_bytes[0]] takes the characters before the first NUL
    of the buffer; a buffer without one is read past its end. *)
Definition Read_string (data : list byte) : istream (list byte) :=
  len <~ Read_u32 ;;
  if 0 <? len then
    string_bytes <~ read_bytes (Z.to_nat len) ;;
    if has_nul string_bytes then iret (until_nul string_bytes)
    else (fun _ => None)
  else iret data.

(** [linked_ptr<T>] and raw pointers: a marker, then the object. *)
Definition Write_ptr {T} (Write_T : T -> list byte) (data : option T)
  : list byte :=
  match data with
  | Some x => Write_u32 1 ++ Write_T x
  | None => Write_u32 0
  end.

(** [Read(linked_ptr<T>&)] leaves [data] as it was without the marker. *)
Definition Read_linked_ptr {T} (Read_T : istream T) (data : linked_ptr T)
  : istream (linked_ptr T) :=
  marker <~ Read_u32 ;;
  if marker =? 1 then (thing <~ Read_T ;; iret (Some thing)) else iret data.

(** [std::map]: the element count, then key and value of each element in
    iteration order; reading inserts the pairs one by one. *)
Definition Write_map {V} (Write_V : V -> list byte) (data : stdmap V)
  : list byte :=
  Write_u32 (u32 (Z.of_nat (length data)))
    ++ flat_map (fun kv => Write_u64 kv.1 ++ Write_V kv.2) data.

Fixpoint Read_map_loop {V} (Read_V : istream V) (n : nat) (data : stdmap V)
  : istream (stdmap V) :=
  match n with
  | O => iret data
  | S n' =>
      key <~ Read_u64 ;;
      value <~ Read_V ;;
      Read_map_loop Read_V n' (map_insert key value data)
  end.

Definition Read_map {V} (Read_V : istream V) (data : stdmap V)
  : istream (stdmap V) :=
  len <~ Read_u32 ;;
  if len =? 0 then iret data else Read_map_loop Read_V (Z.to_nat len) data.

(** [hash_map<u_int32_t, string>]; [insert] keeps an entry already
    there. *)
Definition Write_hash_map (data : gmap Z (list byte)) : list byte :=
  Write_u32 (u32 (Z.of_nat (size data)))
    ++ flat_map (fun kv => Write_u32 kv.1 ++ Write_string kv.2)
         (map_to_list data).

Definition hash_insert {V} (k : Z) (v : V) (m : gmap Z V) : gmap Z V :=
  match m !! k with
  | Some _ => m
  | None => <[k := v]> m
  end.

Fixpoint Read_hash_map_loop (n : nat) (data : gmap Z (list byte))
  : istream (gmap Z (list byte)) :=
  match n with
  | O => iret data
  | S n' =>
      key <~ Read_u32 ;;
      value <~ Read_string [] ;;
      Read_hash_map_loop n' (hash_insert key value data)
  end.

Definition Read_hash_map (data : gmap Z (list byte))
  : istream (gmap Z (list byte)) :=
  len <~ Read_u32 ;;
  if len =? 0 then iret data else Read_hash_map_loop (Z.to_nat len) data.

(** [RangeMap]: the count, then for each range the map key, the base and
    the entry. *)
Definition Write_Range {E} (Write_E : E -> list byte) (data : Range E)
  : list byte :=
  Write_u64 (Range_base_ data) ++ Write_E (Range_entry_ data).

Definition Write_RangeMap {E} (Write_E : E -> list byte) (data : RangeMap E)
  : list byte :=
  Write_u32 (u32 (Z.of_nat (length data)))
    ++ flat_map (fun kv => Write_u64 kv.1 ++ Write_Range Write_E kv.2) data.

Fixpoint Read_RangeMap_loop {E} (Read_E : istream E) (n : nat)
    (data : RangeMap E) : istream (RangeMap E) :=
  match n with
  | O => iret data
  | S n' =>
      address <~ Read_u64 ;;
      range_address <~ Read_u64 ;;
      entry <~ Read_E ;;
      Read_RangeMap_loop Read_E n'
        (map_insert address (mkRange range_address entry) data)
  end.

Definition Read_RangeMap {E} (Read_E : istream E) (data : RangeMap E)
  : istream (RangeMap E) :=
  len <~ Read_u32 ;;
  if len =? 0 then iret data
  else Read_RangeMap_loop Read_E (Z.to_nat len) data.

Definition Write_Line (data : Line) : list byte :=
  Write_u64 (Line_address data) ++ Write_u64 (Line_size data)
    ++ Write_u32 (Line_source_file_id data) ++ Write_u32 (Line_line data).

Definition Read_Line : istream Line :=
  address <~ Read_u64 ;;
  size <~ Read_u64 ;;
  source_file_id <~ Read_u32 ;;
  line <~ Read_u32 ;;
  iret (new_Line address size (to_int source_file_id) (to_int line)).

Definition Write_Function (data : Function) : list byte :=
  Write_string (Function_name data)
    ++ Write_u64 (Function_address data)
    ++ Write_u64 (Function_size data)
    ++ Write_u32 (Function_parameter_size data)
    ++ Write_RangeMap (Write_ptr Write_Line) (Function_lines data).

Definition Read_Function : istream Function :=
  name <~ Read_string [] ;;
  address <~ Read_u64 ;;
  size <~ Read_u64 ;;
  parameter_size <~ Read_u32 ;;
  let data := new_Function name address size (to_int parameter_size) in
  lines <~ Read_RangeMap (Read_linked_ptr Read_Line None) (Function_lines data) ;;
  iret (mkFunction (Function_name data) (Function_address data)
          (Function_size data) (Function_parameter_size data) lines).

Definition Write_PublicSymbol (data : PublicSymbol) : list byte :=
  Write_string (PublicSymbol_name data)
    ++ Write_u64 (PublicSymbol_address data)
    ++ Write_u32 (PublicSymbol_parameter_size data).

Definition Read_PublicSymbol : istream PublicSymbol :=
  name <~ Read_string [] ;;
  address <~ Read_u64 ;;
  parameter_size <~ Read_u32 ;;
  iret (new_PublicSymbol name address (to_int parameter_size)).

Definition Write_StackFrameInfo (data : StackFrameInfo) : list byte :=
  Write_u32 (valid data)
    ++ Write_u32 (prolog_size data)
    ++ Write_u32 (epilog_size data)
    ++ Write_u32 (parameter_size data)
    ++ Write_u32 (saved_register_size data)
    ++ Write_u32 (local_size data)
    ++ Write_u32 (max_stack_size data)
    ++ Write_u32 (if allocates_base_pointer data then 1 else 0)
    ++ Write_string (program_string data).

Definition Read_StackFrameInfo : istream StackFrameInfo :=
  let data := default_StackFrameInfo in
  v <~ Read_u32 ;;
  prolog <~ Read_u32 ;;
  epilog <~ Read_u32 ;;
  parameter <~ Read_u32 ;;
  saved_register <~ Read_u32 ;;
  locals <~ Read_u32 ;;
  max_stack <~ Read_u32 ;;
  allocates <~ Read_u32 ;;
  program <~ Read_string (program_string data) ;;
  iret (mkStackFrameInfo v prolog epilog parameter saved_register locals
          max_stack (negb (allocates =? 0)) program).

(** [ContainedRangeMap]: base, entry, a marker, and with the marker the
    map of children, each child pointer written with a marker too. *)
Fixpoint Write_ContainedRangeMap (data : ContainedRangeMap) : list byte :=
  match data with
  | mkCRM b e m =>
      Write_u64 b
        ++ Write_ptr Write_StackFrameInfo e
        ++ match m with
           | Some children =>
               Write_u32 1
                 ++ Write_u32 (u32 (Z.of_nat (length children)))
                 ++ flat_map
                      (fun kv =>
                         Write_u64 kv.1
                           ++ match kv.2 with
                              | Some child =>
                                  Write_u32 1 ++ Write_ContainedRangeMap child
                              | None => Write_u32 0
                              end) children
           | None => Write_u32 0
           end
  end.

(** [Read(ContainedRangeMap&)] recurses through [Read(ContainedRangeMap*&)]
    for every child; [fuel] bounds the depth of that recursion, and every
    level consumes bytes of the stream, so the length of the stream is
    always enough (see [Read_ContainedRangeMap_fuel]). *)
Fixpoint Read_ContainedRangeMap (fuel : nat) (data : ContainedRangeMap)
  : istream ContainedRangeMap :=
  match fuel with
  | O => fun _ => None
  | S fuel' =>
      base <~ Read_u64 ;;
      entry <~ Read_linked_ptr Read_StackFrameInfo (CRM_entry_ data) ;;
      marker <~ Read_u32 ;;
      if marker =? 1 then
        children <~
          Read_map
            (marker' <~ Read_u32 ;;
             if marker' =? 1 then
               (child <~ Read_ContainedRangeMap fuel' new_ContainedRangeMap ;;
                iret (Some child))
             else iret None)
            [] ;;
        iret (mkCRM base entry (Some children))
      else iret (mkCRM base entry (CRM_map_ data))
  end.

(** A [ModuleSerializer] holds an input stream or an output stream. *)
Record ModuleSerializer := mkModuleSerializer {
  instream_ : option (list byte);
  outstream_ : option (list byte)
}.

Definition ModuleSerializer_of_istream (stream : list byte) : ModuleSerializer :=
  mkModuleSerializer (Some stream) None.
Definition ModuleSerializer_of_ostream (stream : list byte) : ModuleSerializer :=
  mkModuleSerializer None (Some stream).

(** The bytes [Serialize] writes. *)
Definition Write_Module (module : SymbolModule) : list byte :=
  Write_u32 SERIALIZE_FORMAT
    ++ Write_hash_map (files_ module)
    ++ Write_RangeMap (Write_ptr Write_Function) (functions_ module)
    ++ Write_map (Write_ptr Write_PublicSymbol) (public_symbols_ module)
    ++ flat_map (fun i => Write_ContainedRangeMap (stack_info_ module !!! i))
         (seq STACK_INFO_FPO STACK_INFO_LAST).

(** [Serialize]: [seekp(0)] and write over what the stream holds. *)
Definition Serialize (this : ModuleSerializer) (module : SymbolModule)
  : bool * ModuleSerializer :=
  match outstream_ this with
  | None => (false, this)
  | Some out =>
      let written := Write_Module module in
      (true, mkModuleSerializer (instream_ this)
               (Some (written ++ drop (length written) out)))
  end.

(** The loop over the slots [STACK_INFO_FPO .. STACK_INFO_LAST - 1]. *)
Fixpoint Read_stack_info (fuel : nat) (indices : list nat)
    (slots : list ContainedRangeMap) : istream (list ContainedRangeMap) :=
  match indices with
  | [] => iret slots
  | i :: indices' =>
      slot <~ Read_ContainedRangeMap fuel (slots !!! i) ;;
      Read_stack_info fuel indices' (<[i := slot]> slots)
  end.

Definition Read_Module (module : SymbolModule) : istream SymbolModule :=
  fun stream =>
    (files <~ Read_hash_map (files_ module) ;;
     functions <~
       Read_RangeMap (Read_linked_ptr Read_Function None) (functions_ module) ;;
     public_symbols <~
       Read_map (Read_linked_ptr Read_PublicSymbol None)
         (public_symbols_ module) ;;
     stack_info <~
       Read_stack_info (length stream) (seq STACK_INFO_FPO STACK_INFO_LAST)
         (stack_info_ module) ;;
     iret (mkModule (name_ module) files functions public_symbols stack_info))
      stream.

(** [Deserialize]: [seekg(0)], check the format word, read the maps into
    [module].  [None]: a read met the end of the stream. *)
Definition Deserialize (this : ModuleSerializer) (module : SymbolModule)
  : option (bool * SymbolModule) :=
  match instream_ this with
  | None => Some (false, module)
  | Some stream =>
      match Read_u32 stream with
      | None => None
      | Some (format, stream') =>
          if negb (format =? SERIALIZE_FORMAT) then Some (false, module)
          else match Read_Module module stream' with
               | Some (module', _) => Some (true, module')
               | None => None
               end
      end
  end.

(** ** The C library calls of the parser

    [fgets], [strtok_r], [strtoull], [strtoul], [strtol] and [atoi] as the
    C standard describes them, with [long] and [unsigned long] 64 bits
    wide. *)

(** [fgets(buffer, size, f)]: up to [size - 1] characters, stopping after
    a newline; [None] at end of file.  The result is the chunk read and
    the rest of the file. *)
Fixpoint fgets_chunk (n : nat) (f : list byte) : list byte * list byte :=
  match n, f with
  | S n', b :: f' =>
      if Byte.eqb b x0a then ([b], f')
      else let r := fgets_chunk n' f' in (b :: r.1, r.2)
  | _, _ => ([], f)
  end.

Definition fgets (size : nat) (f : list byte) : option (list byte * list byte) :=
  match f with
  | [] => None
  | _ => Some (fgets_chunk (size - 1) f)
  end.

(** [strncmp(buffer, prefix, strlen(prefix)) == 0] for a NUL-free
    prefix. *)
Fixpoint starts_with (prefix s : list byte) : bool :=
  match prefix, s with
  | [] , _ => true
  | p :: prefix', c :: s' => Byte.eqb p c && starts_with prefix' s'
  | _ :: _, [] => false
  end.

Definition is_delim (delim : list byte) (b : byte) : bool :=
  existsb (Byte.eqb b) delim.

Fixpoint skip_while (p : byte -> bool) (s : list byte) : list byte :=
  match s with
  | b :: s' => if p b then skip_while p s' else s
  | [] => []
  end.

Fixpoint span_until (p : byte -> bool) (s : list byte) : list byte * list byte :=
  match s with
  | b :: s' =>
      if p b then ([], s)
      else let r := span_until p s' in (b :: r.1, r.2)
  | [] => ([], [])
  end.

(** [strtok_r(s, delim, &save_ptr)]: the token, if any, and the new
    [save_ptr]. *)
Definition strtok_r (s delim : list byte) : option (list byte) * list byte :=
  match skip_while (is_delim delim) s with
  | [] => (None, [])
  | s1 =>
      let r := span_until (is_delim delim) s1 in
      (Some r.1, match r.2 with [] => [] | _ :: save => save end)
  end.

Definition isspace (b : byte) : bool :=
  let c := Z_of_byte b in (c =? 32) || ((9 <=? c) && (c <=? 13)).

Definition digit_of (b : byte) : option Z :=
  let c := Z_of_byte b in
  if (48 <=? c) && (c <=? 57) then Some (c - 48)
  else if (97 <=? c) && (c <=? 122) then Some (c - 87)
  else if (65 <=? c) && (c <=? 90) then Some (c - 55)
  else None.

Fixpoint digits (base : Z) (s : list byte) (acc : Z) : Z :=
  match s with
  | b :: s' =>
      match digit_of b with
      | Some d => if d <? base then digits base s' (acc * base + d) else acc
      | None => acc
      end
  | [] => acc
  end.

(** Sign and magnitude of the number at the start of [s]. *)
Definition scan_number (base : Z) (s : list byte) : bool * Z :=
  let s1 := skip_while isspace s in
  let signed :=
    match s1 with
    | b :: s' =>
        if Byte.eqb b "-" then (true, s')
        else if Byte.eqb b "+" then (false, s')
        else (false, s1)
    | [] => (false, s1)
    end in
  let s2 :=
    match signed.2 with
    | z :: x :: s' =>
        if (base =? 16) && Byte.eqb z "0" && (Byte.eqb x "x" || Byte.eqb x "X")
        then s' else signed.2
    | _ => signed.2
    end in
  (signed.1, digits base s2 0).

Definition strtoull (s : list byte) (base : Z) : Z :=
  let r := scan_number base s in
  if 2 ^ 64 - 1 <? r.2 then 2 ^ 64 - 1
  else if r.1 then u64 (- r.2) else r.2.

Definition strtoul (s : list byte) (base : Z) : Z := strtoull s base.

Definition strtol (s : list byte) (base : Z) : Z :=
  let r := scan_number base s in
  if r.1 then (if 2 ^ 63 <? r.2 then - 2 ^ 63 else - r.2)
  else (if 2 ^ 63 - 1 <? r.2 then 2 ^ 63 - 1 else r.2).

Definition atoi (s : list byte) : Z := to_int (strtol s 10).

(** ** The symbol-file parser *)

Definition set_files_ (m : SymbolModule) (files : gmap Z (list byte))
  : SymbolModule :=
  mkModule (name_ m) files (functions_ m) (public_symbols_ m) (stack_info_ m).
Definition set_functions_ (m : SymbolModule)
    (functions : RangeMap (linked_ptr Function)) : SymbolModule :=
  mkModule (name_ m) (files_ m) functions (public_symbols_ m) (stack_info_ m).
Definition set_public_symbols_ (m : SymbolModule)
    (public_symbols : AddressMap (linked_ptr PublicSymbol)) : SymbolModule :=
  mkModule (name_ m) (files_ m) (functions_ m) public_symbols (stack_info_ m).
Definition set_stack_info_ (m : SymbolModule)
    (stack_info : list ContainedRangeMap) : SymbolModule :=
  mkModule (name_ m) (files_ m) (functions_ m) (public_symbols_ m) stack_info.

Definition delim_space_cr_lf : list byte := [x20; x0d; x0a].
Definition delim_cr_lf : list byte := [x0d; x0a].

(** The [while (token && --remaining > 0)] loop of [Tokenize]; one level
    of [fuel] per evaluation of the condition, of which there are at most
    [max_tokens]. *)
Fixpoint Tokenize_loop (fuel : nat) (token : option (list byte))
    (remaining : Z) (save_ptr : list byte) (tokens : list (list byte))
  : Z * list byte * list (list byte) :=
  match fuel with
  | O => (remaining, save_ptr, tokens)
  | S fuel' =>
      match token with
      | None => (remaining, save_ptr, tokens)
      | Some t =>
          let remaining := remaining - 1 in
          if 0 <? remaining then
            let tokens := tokens ++ [t] in
            if 1 <? remaining then
              let next := strtok_r save_ptr delim_space_cr_lf in
              Tokenize_loop fuel' next.1 remaining next.2 tokens
            else Tokenize_loop fuel' token remaining save_ptr tokens
          else (remaining, save_ptr, tokens)
      end
  end.

Definition Tokenize (line : list byte) (max_tokens : Z)
  : bool * list (list byte) :=
  let first := strtok_r line delim_space_cr_lf in
  let r := Tokenize_loop (S (Z.to_nat max_tokens)) first.1 max_tokens first.2 [] in
  let remaining := r.1.1 in
  let tokens :=
    if remaining =? 0 then   (* [!remaining > 0] *)
      match (strtok_r r.1.2 delim_cr_lf).1 with
      | Some t => r.2 ++ [t]
      | None => r.2
      end
    else r.2 in
  (Z.of_nat (length tokens) =? max_tokens, tokens).

(** [FILE <id> <filename>] *)
Definition ParseFile (this : SymbolModule) (file_line : list byte)
  : bool * SymbolModule :=
  let tk := Tokenize (drop 5 file_line) 2 in
  if negb tk.1 then (false, this)
  else
    let index := atoi (tk.2 !!! 0%nat) in
    if index <? 0 then (false, this)
    else
      let filename := tk.2 !!! 1%nat in
      (true, set_files_ this (hash_insert (u32 index) filename (files_ this))).

(** [FUNC <address> <size> <stack_param_size> <name>] *)
Definition ParseFunction (function_line : list byte) : option Function :=
  let tk := Tokenize (drop 5 function_line) 4 in
  if negb tk.1 then None
  else
    let address := strtoull (tk.2 !!! 0%nat) 16 in
    let size := strtoull (tk.2 !!! 1%nat) 16 in
    let stack_param_size := to_int (strtoull (tk.2 !!! 2%nat) 16) in
    let name := tk.2 !!! 3%nat in
    Some (new_Function name address size stack_param_size).

(** [<address> <size> <line number> <source file id>] *)
Definition ParseLine (line_line : list byte) : option Line :=
  let tk := Tokenize line_line 4 in
  if negb tk.1 then None
  else
    let address := strtoull (tk.2 !!! 0%nat) 16 in
    let size := strtoull (tk.2 !!! 1%nat) 16 in
    let line_number := atoi (tk.2 !!! 2%nat) in
    let source_file := atoi (tk.2 !!! 3%nat) in
    if line_number <=? 0 then None
    else Some (new_Line address size source_file line_number).

(** [PUBLIC <address> <stack_param_size> <name>] *)
Definition ParsePublicSymbol (this : SymbolModule) (public_line : list byte)
  : bool * SymbolModule :=
  let tk := Tokenize (drop 7 public_line) 3 in
  if negb tk.1 then (false, this)
  else
    let address := strtoull (tk.2 !!! 0%nat) 16 in
    let stack_param_size := to_int (strtoull (tk.2 !!! 1%nat) 16) in
    let name := tk.2 !!! 2%nat in
    if address =? 0 then (true, this)
    else
      let symbol := new_PublicSymbol name address stack_param_size in
      let r := AddressMap_Store (public_symbols_ this) address (Some symbol) in
      (r.1, set_public_symbols_ this r.2).

(** [STACK WIN <type> <rva> <code_size> <prolog_size> <epilog_size>
    <parameter_size> <saved_register_size> <local_size> <max_stack_size>
    <has_program_string> <program_string_OR_allocates_base_pointer>];
    the result of [StoreRange] is not looked at. *)
Definition ParseStackInfo (this : SymbolModule) (stack_info_line : list byte)
  : option (bool * SymbolModule) :=
  let tk := Tokenize (drop 6 stack_info_line) 12 in
  if negb tk.1 then Some (false, this)
  else
    let platform := tk.2 !!! 0%nat in
    if negb (bool_decide (platform = list_byte_of_string "WIN"))
    then Some (false, this)
    else
      let type := to_int (strtol (tk.2 !!! 1%nat) 16) in
      if (type <? 0) || (Z.of_nat STACK_INFO_LAST - 1 <? type)
      then Some (false, this)
      else
        let rva := strtoull (tk.2 !!! 2%nat) 16 in
        let code_size := strtoull (tk.2 !!! 3%nat) 16 in
        let prolog_size := u32 (strtoul (tk.2 !!! 4%nat) 16) in
        let epilog_size := u32 (strtoul (tk.2 !!! 5%nat) 16) in
        let parameter_size := u32 (strtoul (tk.2 !!! 6%nat) 16) in
        let saved_register_size := u32 (strtoul (tk.2 !!! 7%nat) 16) in
        let local_size := u32 (strtoul (tk.2 !!! 8%nat) 16) in
        let max_stack_size := u32 (strtoul (tk.2 !!! 9%nat) 16) in
        let has_program_string := to_int (strtoul (tk.2 !!! 10%nat) 16) in
        let program_string :=
          if negb (has_program_string =? 0) then tk.2 !!! 11%nat else [] in
        let allocates_base_pointer :=
          if negb (has_program_string =? 0) then 0
          else to_int (strtoul (tk.2 !!! 11%nat) 16) in
        let stack_frame_info :=
          new_StackFrameInfo prolog_size epilog_size parameter_size
            saved_register_size local_size max_stack_size
            allocates_base_pointer program_string in
        let slot := Z.to_nat type in
        match CRM_StoreRange (stack_info_ this !!! slot) rva code_size
                (Some stack_frame_info) with
        | None => None
        | Some r =>
            Some (true, set_stack_info_ this (<[slot := r.2]> (stack_info_ this)))
        end.

(** The state of the [LoadMap] loop.  [cur_func] is a [linked_ptr]
    shared with [functions_] when [StoreRange] accepted the function: the
    two name one object, so a store into [cur_func->lines] is seen through
    the map.  [cur_key] remembers the key under which that object sits in
    [functions_] ([None] when the map does not hold it), and the model
    writes the updated function back under that key. *)
Record LoadState := mkLoadState {
  ls_module : SymbolModule;
  cur_func : linked_ptr Function;
  cur_key : option Z
}.

Definition set_lines (f : Function) (lines : RangeMap (linked_ptr Line))
  : Function :=
  mkFunction (Function_name f) (Function_address f) (Function_size f)
    (Function_parameter_size f) lines.

(** The body of the [while (fgets(...))] loop for one buffer, seen as a C
    string.  [Some (false, _)] is a [return false]. *)
Definition LoadMap_step (st : LoadState) (buffer : list byte)
  : option (bool * LoadState) :=
  let this := ls_module st in
  if starts_with (list_byte_of_string "FILE ") buffer then
    let r := ParseFile this buffer in
    Some (r.1, mkLoadState r.2 (cur_func st) (cur_key st))
  else if starts_with (list_byte_of_string "STACK ") buffer then
    match ParseStackInfo this buffer with
    | None => None
    | Some r => Some (r.1, mkLoadState r.2 (cur_func st) (cur_key st))
    end
  else if starts_with (list_byte_of_string "FUNC ") buffer then
    match ParseFunction buffer with
    | None => Some (false, mkLoadState this None None)
    | Some f =>
        let r := RangeMap_StoreRange (functions_ this) (Function_address f)
                   (Function_size f) (Some f) in
        Some (true,
              mkLoadState (set_functions_ this r.2) (Some f)
                (if r.1 then Some (Function_address f + Function_size f - 1)
                 else None))
    end
  else if starts_with (list_byte_of_string "PUBLIC ") buffer then
    let r := ParsePublicSymbol this buffer in
    Some (r.1, mkLoadState r.2 None None)
  else if starts_with (list_byte_of_string "MODULE ") buffer then
    Some (true, st)
  else
    match cur_func st with
    | None => Some (false, st)
    | Some f =>
        match ParseLine buffer with
        | None => Some (false, st)
        | Some line =>
            let r := RangeMap_StoreRange (Function_lines f) (Line_address line)
                       (Line_size line) (Some line) in
            let f' := set_lines f r.2 in
            let functions' :=
              match cur_key st with
              | Some k =>
                  map_update k (mkRange (Function_address f) (Some f'))
                    (functions_ this)
              | None => functions_ this
              end in
            Some (true,
                  mkLoadState (set_functions_ this functions') (Some f')
                    (cur_key st))
        end
    end.

(** The buffers that the successive [fgets(buffer, 8192, f)] calls
    deliver; every call consumes a byte, so [length f] levels of [fuel]
    exhaust the file (see [read_buffers_fuel]). *)
Definition BUFFER_SIZE : nat := Z.to_nat 8192.

Fixpoint read_buffers (fuel : nat) (f : list byte) : list (list byte) :=
  match fuel with
  | O => []
  | S fuel' =>
      match fgets BUFFER_SIZE f with
      | None => []
      | Some r => r.1 :: read_buffers fuel' r.2
      end
  end.

Fixpoint LoadMap_loop (buffers : list (list byte)) (st : LoadState)
  : option (bool * LoadState) :=
  match buffers with
  | [] => Some (true, st)
  | buffer :: buffers' =>
      match LoadMap_step st (until_nul buffer) with
      | Some (true, st') => LoadMap_loop buffers' st'
      | r => r
      end
  end.

(** The buffers of a whole file: its lines, a line longer than the
    buffer coming in several pieces. *)
Definition file_buffers (f : list byte) : list (list byte) :=
  read_buffers (length f) f.

(** [Module::LoadMap]; [fs] maps the path of a readable file to its
    contents. *)
Definition LoadMap (fs : gmap string (list byte)) (this : SymbolModule)
    (map_file : string) : option (bool * SymbolModule) :=
  match fs !! map_file with
  | None => Some (false, this)
  | Some f =>
      match LoadMap_loop (file_buffers f) (mkLoadState this None None) with
      | Some r => Some (r.1, ls_module r.2)
      | None => None
      end
  end.

(** ** [Module::LookupAddress] *)

Record CodeModule := mkCodeModule {
  base_address : Z;
  code_file : string
}.

Record StackFrame := mkStackFrame {
  instruction : Z;
  module : option CodeModule;
  function_name : list byte;
  function_base : Z;
  source_file_name : list byte;
  source_line : Z;
  source_line_base : Z
}.

(** The stack info retrieved for [address]: the [STACK_INFO_FRAME_DATA]
    slot first, the [STACK_INFO_FPO] slot when that retrieval fails. *)
Definition retrieve_stack_info (this : SymbolModule) (address : Z)
  : option (linked_ptr StackFrameInfo) :=
  match CRM_RetrieveRange (stack_info_ this !!! STACK_INFO_FRAME_DATA) address with
  | None => None
  | Some (Some retrieved_info) => Some retrieved_info
  | Some None =>
      match CRM_RetrieveRange (stack_info_ this !!! STACK_INFO_FPO) address with
      | None => None
      | Some (Some retrieved_info) => Some retrieved_info
      | Some None => Some None
      end
  end.

(** Which of the three branches of the [if / else if / else] serves
    [address]. *)
Inductive Resolution : Type :=
  | FromFunction (func : linked_ptr Function) (function_base function_size : Z)
  | FromPublicSymbol (public_symbol : linked_ptr PublicSymbol) (public_address : Z)
  | NoSymbol.

Definition resolve (this : SymbolModule) (address : Z) : Resolution :=
  let nearest := RangeMap_RetrieveNearestRange (functions_ this) address in
  let inside :=
    match nearest with
    | Some (_, function_base, function_size) =>
        (function_base <=? address) &&
        (address <? u64 (function_base + function_size))
    | None => false
    end in
  match nearest, inside with
  | Some (func, function_base, function_size), true =>
      FromFunction func function_base function_size
  | _, _ =>
      match AddressMap_Retrieve (public_symbols_ this) address with
      | Some (public_symbol, public_address) =>
          let usable :=
            match nearest with
            | Some (Some _, function_base, function_size) =>
                u64 (function_base + function_size) <? public_address
            | _ => true    (* [!func.get()] *)
            end in
          if usable then FromPublicSymbol public_symbol public_address
          else NoSymbol
      | None => NoSymbol
      end
  end.

Definition set_function (frame : StackFrame) (name : list byte) (base : Z)
  : StackFrame :=
  mkStackFrame (instruction frame) (module frame) name base
    (source_file_name frame) (source_line frame) (source_line_base frame).

Definition set_source_file_name (frame : StackFrame) (name : list byte)
  : StackFrame :=
  mkStackFrame (instruction frame) (module frame) (function_name frame)
    (function_base frame) name (source_line frame) (source_line_base frame).

Definition set_source_line (frame : StackFrame) (line base : Z) : StackFrame :=
  mkStackFrame (instruction frame) (module frame) (function_name frame)
    (function_base frame) (source_file_name frame) line base.

(** The tail of [LookupAddress]: without a [STACK] record the info is a
    new [StackFrameInfo] that carries the parameter size alone. *)
Definition finish_frame_info (frame_info : option StackFrameInfo)
    (parameter_size : Z) : option StackFrameInfo :=
  match frame_info with
  | Some info => Some info
  | None =>
      let info := default_StackFrameInfo in
      Some (mkStackFrameInfo (Z.lor (valid info) VALID_PARAMETER_SIZE)
              (prolog_size info) (epilog_size info) (u32 parameter_size)
              (saved_register_size info) (local_size info)
              (max_stack_size info) (allocates_base_pointer info)
              (program_string info))
  end.

(** [LookupAddress] fills [frame] and returns the stack frame info, if
    any.  [None]: a null [frame->module], or a null entry dereferenced in
    one of the maps. *)
Definition LookupAddress (this : SymbolModule) (frame : StackFrame)
  : option (StackFrame * option StackFrameInfo) :=
  match module frame with
  | None => None
  | Some code_module =>
      let address := u64 (instruction frame - base_address code_module) in
      match retrieve_stack_info this address with
      | None => None
      | Some retrieved_info =>
          let frame_info :=
            match retrieved_info with
            | Some info => Some (CopyFrom default_StackFrameInfo info)
            | None => None
            end in
          match resolve this address with
          | FromFunction None _ _ => None
          | FromFunction (Some func) function_base function_size =>
              let parameter_size := to_int (Function_parameter_size func) in
              let frame1 :=
                set_function frame (Function_name func)
                  (u64 (base_address code_module + function_base)) in
              match RangeMap_RetrieveRange (Function_lines func) address with
              | Some (None, _, _) => None
              | Some (Some line, line_base, _) =>
                  let frame2 :=
                    match files_ this !! Line_source_file_id line with
                    | Some file => set_source_file_name frame1 file
                    | None => frame1
                    end in
                  let frame3 :=
                    set_source_line frame2 (to_int (Line_line line))
                      (u64 (base_address code_module + line_base)) in
                  Some (frame3, finish_frame_info frame_info parameter_size)
              | None => Some (frame1, finish_frame_info frame_info parameter_size)
              end
          | FromPublicSymbol None _ => None
          | FromPublicSymbol (Some public_symbol) public_address =>
              let parameter_size :=
                to_int (PublicSymbol_parameter_size public_symbol) in
              let frame1 :=
                set_function frame (PublicSymbol_name public_symbol)
                  (u64 (base_address code_module + public_address)) in
              Some (frame1, finish_frame_info frame_info parameter_size)
          | NoSymbol => Some (frame, frame_info)
          end
      end
  end.

(** ** The resolver *)

(** [SourceLineResolverModuleCacheInterface], over the state [C] of the
    cache.  [GetModuleData] yields the contents of the stream it opens;
    [BeginSetModuleData] yields the initial contents of the stream it
    opens; [EndSetModuleData] receives what the stream holds when it is
    handed back. *)
Class SourceLineResolverModuleCacheInterface (C : Type) := {
  GetModuleData : C -> string -> option (list byte);
  BeginSetModuleData : C -> string -> option (list byte);
  EndSetModuleData : C -> string -> list byte -> C
}.

Section Resolver.
Context {C : Type} `{SourceLineResolverModuleCacheInterface C}.

Record BasicSourceLineResolver := mkResolver {
  modules_ : gmap string SymbolModule;
  module_cache_ : option C
}.

Definition cached_stream (this : BasicSourceLineResolver) (map_file : string)
  : option (list byte) :=
  match module_cache_ this with
  | Some cache => GetModuleData cache map_file
  | None => None
  end.

(** The store of a parsed module into the cache, when there is one and
    it opens a stream. *)
Definition store_in_cache (this : BasicSourceLineResolver)
    (map_file : string) (module : SymbolModule) : option C :=
  match module_cache_ this with
  | Some cache =>
      match BeginSetModuleData cache map_file with
      | Some outstream =>
          let r := Serialize (ModuleSerializer_of_ostream outstream) module in
          match outstream_ r.2 with
          | Some written => Some (EndSetModuleData cache map_file written)
          | None => Some (EndSetModuleData cache map_file outstream)
          end
      | None => Some cache
      end
  | None => None
  end.

(** [LoadModule]; [fs] holds the readable symbol files. *)
Definition LoadModule (fs : gmap string (list byte))
    (this : BasicSourceLineResolver) (module_name map_file : string)
  : option (bool * BasicSourceLineResolver) :=
  match modules_ this !! module_name with
  | Some _ => Some (false, this)
  | None =>
      let module := new_Module module_name in
      match cached_stream this map_file with
      | Some instream =>
          match Deserialize (ModuleSerializer_of_istream instream) module with
          | None => None
          | Some (_, module') =>
              Some (true,
                    mkResolver (<[module_name := module']> (modules_ this))
                      (module_cache_ this))
          end
      | None =>
          match LoadMap fs module map_file with
          | None => None
          | Some (false, _) => Some (false, this)
          | Some (true, module') =>
              Some (true,
                    mkResolver (<[module_name := module']> (modules_ this))
                      (store_in_cache this map_file module'))
          end
      end
  end.

Definition HasModule (this : BasicSourceLineResolver) (module_name : string)
  : bool :=
  match modules_ this !! module_name with Some _ => true | None => false end.

Definition FillSourceLineInfo (this : BasicSourceLineResolver)
    (frame : StackFrame) : option (StackFrame * option StackFrameInfo) :=
  match module frame with
  | Some code_module =>
      match modules_ this !! code_file code_module with
      | Some m => LookupAddress m frame
      | None => Some (frame, None)
      end
  | None => Some (frame, None)
  end.
End Resolver.

Arguments BasicSourceLineResolver C : clear implicits.

(** [ModuleRoundTripTest]: parse, serialize into a memory stream,
    deserialize into a new module, compare. *)
Definition ModuleRoundTripTest (fs : gmap string (list byte)) (map_file : string)
  : option bool :=
  match LoadMap fs (new_Module "test") map_file with
  | None => None
  | Some (false, _) => Some false
  | Some (true, module) =>
      if negb (Module_Equals module module) then Some false
      else
        let r := Serialize (ModuleSerializer_of_ostream []) module in
        if negb r.1 then Some false
        else
          let memory_stream :=
            match outstream_ r.2 with Some s => s | None => [] end in
          match Deserialize (ModuleSerializer_of_istream memory_stream)
                  (new_Module "test") with
          | None => None
          | Some (false, _) => Some false
          | Some (true, new_module) => Some (Module_Equals module new_module)
          end
  end.

(** A cache that keeps each stream in a table under the name of its
    symbol file, as [DiskModuleCache] keeps it in a file named after the
    symbol file. *)
#[global] Instance StreamTable
  : SourceLineResolverModuleCacheInterface (gmap string (list byte)) := {|
  GetModuleData cache symbol_file := cache !! symbol_file;
  BeginSetModuleData cache symbol_file := Some [];
  EndSetModuleData cache symbol_file stream := <[symbol_file := stream]> cache
|}.

(** ** Well-formed modules

    What every module built by [LoadMap] satisfies: numbers fit their C
    types, strings are C strings that fit a line buffer, the maps are in
    key order, no stored pointer is null, every stored range lies within
    the address space, and no map holds more than [n] elements. *)

Definition string_ok (s : list byte) : Prop :=
  nul_free s /\ (length s <= BUFFER_SIZE)%nat.

(** A pointer that is set, to an object satisfying [P]. *)
Definition ptr_ok {T} (P : T -> Prop) (p : option T) : Prop :=
  match p with Some x => P x | None => False end.

(** A pointer that is null or set to an object satisfying [P]. *)
Definition opt_ok {T} (P : T -> Prop) (p : option T) : Prop :=
  match p with Some x => P x | None => True end.

Definition stdmap_ok {V} (n : nat) (P : Z -> V -> Prop) (m : stdmap V) : Prop :=
  sorted_above (-1) m /\ (length m <= n)%nat /\
  Forall (fun kv => kv.1 < 2 ^ 64 /\ P kv.1 kv.2) m.

Definition Range_ok {E} (P : E -> Prop) (high : Z) (r : Range E) : Prop :=
  0 <= Range_base_ r <= high /\ high < 2 ^ 64 - 1 /\ P (Range_entry_ r).

Definition Line_ok (l : Line) : Prop :=
  is_u64 (Line_address l) /\ is_u64 (Line_size l) /\
  is_u32 (Line_source_file_id l) /\ is_u32 (Line_line l).

Definition Function_ok (n : nat) (f : Function) : Prop :=
  string_ok (Function_name f) /\ is_u64 (Function_address f) /\
  is_u64 (Function_size f) /\ is_u32 (Function_parameter_size f) /\
  stdmap_ok n (Range_ok (ptr_ok Line_ok)) (Function_lines f).

Definition PublicSymbol_ok (p : PublicSymbol) : Prop :=
  string_ok (PublicSymbol_name p) /\ is_u64 (PublicSymbol_address p) /\
  is_u32 (PublicSymbol_parameter_size p).

Definition StackFrameInfo_ok (i : StackFrameInfo) : Prop :=
  is_u32 (valid i) /\ is_u32 (prolog_size i) /\ is_u32 (epilog_size i) /\
  is_u32 (parameter_size i) /\ is_u32 (saved_register_size i) /\
  is_u32 (local_size i) /\ is_u32 (max_stack_size i) /\
  string_ok (program_string i).

Fixpoint ContainedRangeMap_ok (n : nat) (c : ContainedRangeMap) : Prop :=
  match c with
  | mkCRM b e m =>
      is_u64 b /\ opt_ok StackFrameInfo_ok e /\
      match m with
      | None => True
      | Some children =>
          sorted_above (-1) children /\ (length children <= n)%nat /\
          (fix all (l : stdmap (option ContainedRangeMap)) : Prop :=
             match l with
             | [] => True
             | (k, oc) :: l' =>
                 (k < 2 ^ 64 /\
                  match oc with
                  | Some child => ContainedRangeMap_ok n child
                  | None => False
                  end) /\ all l'
             end) children
      end
  end.

Definition Module_ok (n : nat) (m : SymbolModule) : Prop :=
  (size (files_ m) <= n)%nat /\
  map_Forall (fun k v => is_u32 k /\ string_ok v) (files_ m) /\
  stdmap_ok n (Range_ok (ptr_ok (Function_ok n))) (functions_ m) /\
  stdmap_ok n (fun _ => ptr_ok PublicSymbol_ok) (public_symbols_ m) /\
  length (stack_info_ m) = STACK_INFO_LAST /\
  Forall (ContainedRangeMap_ok n) (stack_info_ m).

(** The modules the codec carries exactly: well formed, with every
    element count within [u_int32_t]. *)
Definition Module_wf (m : SymbolModule) : Prop :=
  exists n : nat, Z.of_nat n < 2 ^ 32 /\ Module_ok n m.

(** [R] reads back what [W] wrote for [x], whatever follows. *)
Definition reads_back {T} (W : T -> list byte) (R : istream T) (x : T) : Prop :=
  forall rest, R (W x ++ rest) = Some (x, rest).

(** What [Deserialize] rebuilds in a new module named [name]: the maps
    of [m] under the new name. *)
Definition renamed (name : string) (m : SymbolModule) : SymbolModule :=
  mkModule name (files_ m) (functions_ m) (public_symbols_ m) (stack_info_ m).

(** The invariant of the [LoadMap] loop after [n] buffers: the module
    and the current function are well formed, and [cur_key], when set, is
    the high address of the current function's range. *)
Definition LoadState_ok (n : nat) (st : LoadState) : Prop :=
  Module_ok n (ls_module st) /\
  opt_ok (Function_ok n) (cur_func st) /\
  match cur_key st with
  | Some k =>
      match cur_func st with
      | Some f => 0 <= Function_address f <= k /\ k < 2 ^ 64 - 1
      | None => False
      end
  | None => True
  end.

(** ** Sample symbol files

    Small files on which the statements below are exercised; addresses
    are relative to the module, which the sample frames place at
    0x1000. *)

Definition text (lines : list string) : list byte :=
  flat_map (fun l => list_byte_of_string l ++ [x0a]) lines.

(** A function with two source lines. *)
Definition sym_function : list byte :=
  text ["MODULE windows x86 5A9832E5287241C1838ED98914E9B7FF1 test_app.pdb";
        "FILE 1 /src/foo.c";
        "FUNC 100 20 4 foo";
        "100 10 42 1";
        "110 10 43 1"]%string.

(** A function and a public symbol above it. *)
Definition sym_public : list byte :=
  text ["FUNC 100 20 0 inside"; "PUBLIC 200 8 outside"]%string.

(** Stack records of types 0 and 4 over the same range, and a function
    in that range. *)
Definition sym_stack : list byte :=
  text ["STACK WIN 0 100 20 1 2 3 4 5 6 0 1";
        "STACK WIN 4 100 20 1 2 3 4 5 6 1 $eip 4 + ^ =";
        "FUNC 100 20 4 foo"]%string.

(** The same with records of the other three types added. *)
Definition sym_stack_other : list byte :=
  text ["STACK WIN 0 100 20 1 2 3 4 5 6 0 1";
        "STACK WIN 1 100 20 1 2 3 4 5 6 1 trap";
        "STACK WIN 2 100 20 1 2 3 4 5 6 1 tss";
        "STACK WIN 3 100 20 1 2 3 4 5 6 1 standard";
        "STACK WIN 4 100 20 1 2 3 4 5 6 1 $eip 4 + ^ =";
        "FUNC 100 20 4 foo"]%string.

(** Only a type-0 stack record. *)
Definition sym_fpo : list byte :=
  text ["STACK WIN 0 100 20 1 2 3 4 5 6 0 1"; "FUNC 100 20 4 foo"]%string.

(** Two files that differ in the parameter size of [foo] alone. *)
Definition sym_param_4 : list byte := text ["FUNC 100 20 4 foo"]%string.
Definition sym_param_8 : list byte := text ["FUNC 100 20 8 foo"]%string.

(** A source line with no function before it. *)
Definition sym_orphan : list byte :=
  text ["MODULE windows x86 5A9832E5287241C1838ED98914E9B7FF1 test_app.pdb";
        "FILE 1 /src/foo.c";
        "100 10 42 1";
        "FUNC 100 20 4 foo"]%string.

Definition sample_fs : gmap string (list byte) :=
  {[ "function.sym"%string := sym_function;
     "public.sym"%string := sym_public;
     "stack.sym"%string := sym_stack;
     "stack_other.sym"%string := sym_stack_other;
     "fpo.sym"%string := sym_fpo;
     "param4.sym"%string := sym_param_4;
     "param8.sym"%string := sym_param_8;
     "orphan.sym"%string := sym_orphan;
     "empty.sym"%string := [] ]}.

(** The module that [LoadMap] builds from a sample file. *)
Definition loaded (map_file : string) : SymbolModule :=
  match LoadMap sample_fs (new_Module "test") map_file with
  | Some (_, m) => m
  | None => new_Module "test"
  end.

(** A frame at [instruction] in a module loaded at 0x1000. *)
Definition frame_at (instruction : Z) : StackFrame :=
  mkStackFrame instruction (Some (mkCodeModule 4096 "test")) [] 0 [] 0 0.

(** ** Notions used in the statements *)

(** The stack info that the two probes of [LookupAddress] select: the
    info of the [STACK_INFO_FRAME_DATA] slot when that slot has some for
    the address, whatever the [STACK_INFO_FPO] slot holds; the info of
    the [STACK_INFO_FPO] slot when the first probe finds nothing. *)
Definition probes_select (m : SymbolModule) (address : Z)
    (info : StackFrameInfo) : Prop :=
  CRM_RetrieveRange (stack_info_ m !!! STACK_INFO_FRAME_DATA) address
    = Some (Some (Some info)) \/
  (CRM_RetrieveRange (stack_info_ m !!! STACK_INFO_FRAME_DATA) address
     = Some None /\
   CRM_RetrieveRange (stack_info_ m !!! STACK_INFO_FPO) address
     = Some (Some (Some info))).

(** The parameter size of the [FUNC] or [PUBLIC] record that serves the
    address. *)
Definition served_parameter_size (m : SymbolModule) (address : Z) : option Z :=
  match resolve m address with
  | FromFunction (Some func) _ _ => Some (Function_parameter_size func)
  | FromPublicSymbol (Some public_symbol) _ =>
      Some (PublicSymbol_parameter_size public_symbol)
  | _ => None
  end.

(** How [LoadMap] classifies a buffer: a record kept or ignored without
    a current function ([MODULE], [FILE], [STACK]), or a source line. *)
Definition has_prefix (prefix : string) (buffer : list byte) : bool :=
  starts_with (list_byte_of_string prefix) (until_nul buffer).

Definition header_record (buffer : list byte) : bool :=
  has_prefix "MODULE " buffer || has_prefix "FILE " buffer
  || has_prefix "STACK " buffer.

Definition line_record (buffer : list byte) : bool :=
  negb (has_prefix "FILE " buffer || has_prefix "STACK " buffer
        || has_prefix "FUNC " buffer || has_prefix "PUBLIC " buffer
        || has_prefix "MODULE " buffer).

(** ** A symbol file with 2^32 records *)

Definition hex_chars : list byte := list_byte_of_string "0123456789abcdef".

Definition hex_digit (d : Z) : byte := nth (Z.to_nat d) hex_chars "0"%byte.

(** [n] hexadecimal digits of [k], most significant first, before
    [acc]. *)
Fixpoint hex_digits (n : nat) (k : Z) (acc : list byte) : list byte :=
  match n with
  | O => acc
  | S n' => hex_digits n' (k / 16) (hex_digit (k mod 16) :: acc)
  end.

(** The record [PUBLIC <k in 9 hexadecimal digits> 0 f]. *)
Definition public_record (k : Z) : list byte :=
  list_byte_of_string "PUBLIC " ++ hex_digits 9 k []
    ++ list_byte_of_string " 0 f" ++ [x0a].

Fixpoint count_from (start : Z) (n : nat) : list Z :=
  match n with
  | O => []
  | S n' => start :: count_from (start + 1) n'
  end.

(** The file of the records for the addresses 1 .. [n]. *)
Definition public_records (n : nat) : list byte :=
  flat_map public_record (count_from 1 n).


(** The characters of a token: no separator, no sign, no [x]. *)
Definition word_char (c : byte) : Prop :=
  is_delim delim_space_cr_lf c = false /\ isspace c = false /\
  Byte.eqb c "-" = false /\ Byte.eqb c "+" = false /\
  Byte.eqb c "x" = false /\ Byte.eqb c "X" = false /\
  Byte.eqb c x00 = false /\ Byte.eqb c x0a = false.




(** * Properties *)

(** ** Integers and bytes *)

Lemma u32_small x : is_u32 x -> u32 x = x.
Proof. unfold is_u32, u32. intros. apply Z.mod_small. lia. Qed.

Lemma u64_small x : is_u64 x -> u64 x = x.
Proof. unfold is_u64, u64. intros. apply Z.mod_small. lia. Qed.

Lemma u32_range x : is_u32 (u32 x).
Proof. unfold is_u32, u32. apply Z.mod_pos_bound. lia. Qed.

Lemma u64_range x : is_u64 (u64 x).
Proof. unfold is_u64, u64. apply Z.mod_pos_bound. lia. Qed.

(** A [u_int32_t] passed through an [int] parameter comes back
    unchanged. *)
Lemma u32_to_int x : is_u32 x -> u32 (to_int x) = x.
Proof.
  unfold is_u32, u32, to_int. intros Hx.
  rewrite (Z.mod_small x) by lia.
  destruct (x <? 2 ^ 31).
  - apply Z.mod_small. lia.
  - replace (x - 2 ^ 32) with (x + (-1) * 2 ^ 32) by lia.
    rewrite Z.mod_add by lia. apply Z.mod_small. lia.
Qed.

Lemma u32_to_int_any x : u32 (to_int x) = u32 x.
Proof.
  unfold u32, to_int.
  destruct (x mod 2 ^ 32 <? 2 ^ 31).
  - apply Z.mod_mod. lia.
  - replace (x mod 2 ^ 32 - 2 ^ 32) with (x mod 2 ^ 32 + (-1) * 2 ^ 32) by lia.
    rewrite Z.mod_add by lia. apply Z.mod_mod. lia.
Qed.

Lemma Z_of_byte_range b : 0 <= Z_of_byte b < 256.
Proof.
  unfold Z_of_byte. pose proof (Byte.to_N_bounded b). lia.
Qed.

Lemma Z_of_byte_of_Z z : Z_of_byte (byte_of_Z z) = z mod 256.
Proof.
  unfold Z_of_byte, byte_of_Z.
  assert (Hr : 0 <= z mod 256 < 256) by (apply Z.mod_pos_bound; lia).
  destruct (Byte.of_N (Z.to_N (z mod 256))) as [b|] eqn:E.
  - apply Byte.to_of_N in E. rewrite E. lia.
  - apply Byte.of_N_None_iff in E. lia.
Qed.

Lemma decode_encode_le n x :
  0 <= x < 256 ^ Z.of_nat n -> decode_le (encode_le n x) = x.
Proof.
  revert x. induction n as [|n IH]; intros x Hx.
  - simpl in *. lia.
  - cbn [encode_le decode_le]. rewrite Z_of_byte_of_Z.
    rewrite Nat2Z.inj_succ, Z.pow_succ_r in Hx by lia.
    rewrite IH.
    + pose proof (Z.div_mod x 256). lia.
    + split; [apply Z.div_pos; lia | apply Z.div_lt_upper_bound; lia].
Qed.

Lemma length_encode_le n x : length (encode_le n x) = n.
Proof. revert x. induction n; intros; simpl; auto. Qed.

Lemma byte_eqb_refl b : Byte.eqb b b = true.
Proof. apply Byte.byte_dec_lb. reflexivity. Qed.

Lemma byte_eqb_neq a b : a <> b -> Byte.eqb a b = false.
Proof.
  intros Hne. destruct (Byte.eqb a b) eqn:E; [|reflexivity].
  apply Byte.byte_dec_bl in E. contradiction.
Qed.

Lemma until_nul_padded s pad t :
  nul_free s -> until_nul (s ++ x00 :: pad ++ t) = s.
Proof.
  induction 1 as [|b s Hb Hs IH]; simpl.
  - reflexivity.
  - rewrite byte_eqb_neq by assumption. f_equal. exact IH.
Qed.

Lemma has_nul_padded s pad : has_nul (s ++ x00 :: pad) = true.
Proof.
  unfold has_nul. rewrite existsb_app. simpl. apply orb_true_r.
Qed.

Lemma nul_free_until_nul l : nul_free (until_nul l).
Proof.
  induction l as [|b l IH]; simpl.
  - constructor.
  - destruct (Byte.eqb b x00) eqn:E; constructor; [|exact IH].
    intros ->. discriminate.
Qed.

Lemma length_until_nul l : (length (until_nul l) <= length l)%nat.
Proof.
  induction l as [|b l IH]; simpl; [lia|].
  destruct (Byte.eqb b x00); simpl; lia.
Qed.

(** ** Stream primitives *)

Lemma read_bytes_app l rest :
  read_bytes (length l) (l ++ rest) = Some (l, rest).
Proof.
  unfold read_bytes. rewrite length_app.
  destruct (Nat.leb_spec (length l) (length l + length rest)); [|lia].
  rewrite take_app_length, drop_app_length. reflexivity.
Qed.

Lemma ibind_app {A B} (m : istream A) (k : A -> istream B) w rest x :
  (forall rest', m (w ++ rest') = Some (x, rest')) ->
  ibind m k (w ++ rest) = k x rest.
Proof. intros Hm. unfold ibind. rewrite Hm. reflexivity. Qed.

Lemma Read_u32_Write x rest :
  is_u32 x -> Read_u32 (Write_u32 x ++ rest) = Some (x, rest).
Proof.
  intros Hx. unfold Read_u32, Write_u32, ibind.
  pose proof (read_bytes_app (encode_le 4 x) rest) as Hr.
  rewrite length_encode_le in Hr. rewrite Hr. unfold iret.
  rewrite decode_encode_le; [reflexivity|]. unfold is_u32 in Hx. simpl. lia.
Qed.

Lemma Read_u64_Write x rest :
  is_u64 x -> Read_u64 (Write_u64 x ++ rest) = Some (x, rest).
Proof.
  intros Hx. unfold Read_u64, Write_u64, ibind.
  pose proof (read_bytes_app (encode_le 8 x) rest) as Hr.
  rewrite length_encode_le in Hr. rewrite Hr. unfold iret.
  rewrite decode_encode_le; [reflexivity|]. unfold is_u64 in Hx. simpl. lia.
Qed.

Lemma Read_string_Write s rest :
  string_ok s -> Read_string [] (Write_string s ++ rest) = Some (s, rest).
Proof.
  intros [Hnul Hlen]. unfold Read_string, Write_string.
  destruct s as [|b s].
  - unfold ibind. rewrite Read_u32_Write by (unfold is_u32; lia).
    reflexivity.
  - set (l := b :: s) in *.
    assert (Hl : 0 < Z.of_nat (length l) <= 8192).
    { unfold BUFFER_SIZE in Hlen. subst l. simpl length in *. lia. }
    pose proof (Z.mod_pos_bound (Z.of_nat (length l)) 4 ltac:(lia)) as Hm.
    set (extra := 4 - Z.of_nat (length l) mod 4) in *.
    rewrite (u32_small extra) by (unfold is_u32; lia).
    rewrite (u32_small (Z.of_nat (length l))) by (unfold is_u32; lia).
    rewrite (u32_small (Z.of_nat (length l) + extra)) by (unfold is_u32; lia).
    rewrite <- !app_assoc. unfold ibind at 1.
    rewrite Read_u32_Write by (unfold is_u32; lia).
    destruct (Z.ltb_spec 0 (Z.of_nat (length l) + extra)); [|lia].
    assert (Hpad : exists k, Z.to_nat extra = S k)
      by (exists (Z.to_nat extra - 1)%nat; lia).
    destruct Hpad as [k Hk]. rewrite Hk. simpl replicate.
    assert (Hn : Z.to_nat (Z.of_nat (length l) + extra)
                 = length (l ++ x00 :: replicate k x00)).
    { rewrite length_app. simpl. rewrite length_replicate. lia. }
    unfold ibind. rewrite Hn.
    replace (l ++ (x00 :: replicate k x00) ++ rest)
      with ((l ++ x00 :: replicate k x00) ++ rest)
      by (rewrite <- app_assoc; reflexivity).
    rewrite read_bytes_app, has_nul_padded. unfold iret.
    pose proof (until_nul_padded l (replicate k x00) [] Hnul) as Hu.
    rewrite app_nil_r in Hu. rewrite Hu. reflexivity.
Qed.

(** ** Ordered maps *)

Lemma sorted_above_weaken {V} lo lo' (m : stdmap V) :
  lo' <= lo -> sorted_above lo m -> sorted_above lo' m.
Proof. destruct m as [|[k v] m]; simpl; [tauto|]. intros ? [? ?]. split; [lia|assumption]. Qed.

Lemma sorted_above_keys {V} lo (m : stdmap V) :
  sorted_above lo m -> Forall (fun kv => lo < kv.1) m.
Proof.
  revert lo. induction m as [|[k v] m IH]; intros lo Hs; constructor.
  - simpl in *. tauto.
  - destruct Hs as [Hk Hs]. apply IH in Hs.
    eapply Forall_impl; [exact Hs|]. simpl. intros; lia.
Qed.

Lemma sorted_above_app {V} lo (a b : stdmap V) :
  sorted_above lo (a ++ b) ->
  sorted_above lo a /\
  forall k v, In (k, v) b -> Forall (fun kv => kv.1 < k) a.
Proof.
  revert lo. induction a as [|[k0 v0] a IH]; intros lo Hs.
  - split; [exact I|]. intros. constructor.
  - simpl in Hs. destruct Hs as [Hk Hs]. destruct (IH _ Hs) as [Ha Hb].
    split; [split; assumption|].
    intros k v Hin. constructor; [|eapply Hb; eassumption].
    apply sorted_above_keys in Hs. rewrite Forall_forall in Hs.
    specialize (Hs (k, v)). simpl in *. apply Hs.
    apply list_elem_of_In, in_or_app. right. exact Hin.
Qed.

Lemma map_insert_snoc {V} k (v : V) (m : stdmap V) :
  Forall (fun kv => kv.1 < k) m -> map_insert k v m = m ++ [(k, v)].
Proof.
  induction 1 as [|[k' v'] m Hk Hm IH]; simpl; [reflexivity|].
  simpl in Hk.
  destruct (Z.ltb_spec k k'); [lia|].
  destruct (Z.eqb_spec k k'); [lia|].
  rewrite IH. reflexivity.
Qed.

Lemma map_find_sorted {V} lo (m : stdmap V) k v :
  sorted_above lo m -> In (k, v) m -> map_find k m = Some v.
Proof.
  revert lo. induction m as [|[k' v'] m IH]; intros lo Hs Hin; [destruct Hin|].
  simpl in *. destruct Hs as [Hk Hs]. destruct Hin as [Heq|Hin].
  - inversion Heq; subst. rewrite Z.eqb_refl. reflexivity.
  - destruct (Z.eqb_spec k' k) as [->|Hne].
    + apply sorted_above_keys in Hs. rewrite Forall_forall in Hs.
      apply list_elem_of_In in Hin.
      specialize (Hs _ Hin). simpl in Hs. lia.
    + eapply IH; eassumption.
Qed.

Lemma map_find_None {V} lo (m : stdmap V) k :
  sorted_above lo m -> k <= lo -> map_find k m = None.
Proof.
  revert lo. induction m as [|[k' v'] m IH]; intros lo Hs Hk; [reflexivity|].
  simpl in *. destruct Hs as [Hlo Hs].
  destruct (Z.eqb_spec k' k); [lia|]. apply (IH k'); [assumption|lia].
Qed.

Lemma sorted_above_insert {V} lo k (v : V) (m : stdmap V) :
  lo < k -> sorted_above lo m -> sorted_above lo (map_insert k v m).
Proof.
  revert lo. induction m as [|[k' v'] m IH]; intros lo Hk Hs; simpl.
  - tauto.
  - simpl in Hs. destruct Hs as [Hlo Hs].
    destruct (Z.ltb_spec k k').
    + simpl. repeat split; assumption || lia.
    + destruct (Z.eqb_spec k k').
      * simpl. split; assumption.
      * simpl. split; [assumption|]. apply IH; [lia|assumption].
Qed.

Lemma length_map_insert {V} k (v : V) (m : stdmap V) :
  (length (map_insert k v m) <= S (length m))%nat.
Proof.
  induction m as [|[k' v'] m IH]; simpl; [lia|].
  destruct (k <? k'); [simpl; lia|]. destruct (k =? k'); simpl; lia.
Qed.

Lemma Forall_map_insert {V} (P : Z * V -> Prop) k v (m : stdmap V) :
  P (k, v) -> Forall P m -> Forall P (map_insert k v m).
Proof.
  intros Hkv. induction 1 as [|[k' v'] m Hx Hm IH]; simpl.
  - constructor; [assumption|constructor].
  - destruct (k <? k'); [constructor; [assumption|constructor; assumption]|].
    destruct (k =? k'); constructor; assumption.
Qed.

Lemma sorted_above_update {V} lo k (v : V) (m : stdmap V) :
  sorted_above lo m -> sorted_above lo (map_update k v m).
Proof.
  revert lo. induction m as [|[k' v'] m IH]; intros lo Hs; simpl; [exact I|].
  simpl in Hs. destruct Hs as [Hlo Hs].
  destruct (k' =? k); simpl; split; auto.
Qed.

Lemma length_map_update {V} k (v : V) (m : stdmap V) :
  length (map_update k v m) = length m.
Proof.
  induction m as [|[k' v'] m IH]; simpl; [reflexivity|].
  destruct (k' =? k); simpl; congruence.
Qed.

Lemma Forall_map_update {V} (P : Z * V -> Prop) k v (m : stdmap V) :
  P (k, v) -> Forall P m -> Forall P (map_update k v m).
Proof.
  intros Hkv. induction 1 as [|[k' v'] m Hx Hm IH]; simpl; [constructor|].
  destruct (Z.eqb_spec k' k) as [->|]; constructor; assumption.
Qed.

Lemma sorted_above_filter {V} lo (p : Z * V -> bool) (m : stdmap V) :
  sorted_above lo m -> sorted_above lo (List.filter p m).
Proof.
  revert lo. induction m as [|[k v] m IH]; intros lo Hs; simpl; [exact I|].
  simpl in Hs. destruct Hs as [Hlo Hs].
  destruct (p (k, v)); simpl.
  - split; [assumption|]. apply IH. assumption.
  - apply IH. eapply sorted_above_weaken; [|eassumption]. lia.
Qed.

Lemma length_filter_le {A} (p : A -> bool) (l : list A) :
  (length (List.filter p l) <= length l)%nat.
Proof. induction l as [|x l IH]; simpl; [lia|]. destruct (p x); simpl; lia. Qed.

Lemma Forall_filter_list {A} (P : A -> Prop) (p : A -> bool) (l : list A) :
  Forall P l -> Forall P (List.filter p l).
Proof.
  induction 1 as [|x l Hx Hl IH]; simpl; [constructor|].
  destruct (p x); [constructor|]; assumption.
Qed.

(** ** Round trips of the codec, type by type *)

Lemma Read_map_loop_Write {V} (W : V -> list byte) (R : istream V)
    (l acc : stdmap V) lo rest :
  sorted_above lo (acc ++ l) ->
  Forall (fun kv => is_u64 kv.1 /\ reads_back W R kv.2) l ->
  Read_map_loop R (length l) acc
    (flat_map (fun kv => Write_u64 kv.1 ++ W kv.2) l ++ rest)
  = Some (acc ++ l, rest).
Proof.
  intros Hs Hl. revert acc Hs.
  induction Hl as [|[k v] l [Hk Hv] Hl IH]; intros acc Hs.
  - simpl. rewrite app_nil_r. reflexivity.
  - cbn [length Read_map_loop flat_map fst snd].
    rewrite <- !app_assoc. unfold ibind at 1.
    rewrite Read_u64_Write by assumption.
    unfold ibind at 1. rewrite (Hv _).
    rewrite map_insert_snoc.
    + rewrite IH.
      * rewrite <- app_assoc. reflexivity.
      * rewrite <- app_assoc. exact Hs.
    + apply sorted_above_app in Hs. destruct Hs as [_ Hs].
      apply (Hs k v). left. reflexivity.
Qed.

Lemma Read_map_Write {V} (W : V -> list byte) (R : istream V)
    (l : stdmap V) lo rest :
  sorted_above lo l -> Z.of_nat (length l) < 2 ^ 32 ->
  Forall (fun kv => is_u64 kv.1 /\ reads_back W R kv.2) l ->
  Read_map R [] (Write_map W l ++ rest) = Some (l, rest).
Proof.
  intros Hs Hlen Hl. unfold Read_map, Write_map.
  rewrite u32_small by (unfold is_u32; lia).
  rewrite <- app_assoc. unfold ibind.
  rewrite Read_u32_Write by (unfold is_u32; lia).
  destruct (Z.eqb_spec (Z.of_nat (length l)) 0) as [H0|H0].
  - destruct l; [reflexivity | simpl in H0; lia].
  - rewrite Nat2Z.id.
    rewrite (Read_map_loop_Write W R l [] lo rest); auto.
Qed.

Lemma Read_RangeMap_loop_as_map {E} (R : istream E) n data s :
  Read_RangeMap_loop R n data s
  = Read_map_loop
      (range_address <~ Read_u64 ;; entry <~ R ;;
       iret (mkRange range_address entry)) n data s.
Proof.
  revert data s. induction n as [|n IH]; intros data s; simpl; [reflexivity|].
  unfold ibind, iret.
  destruct (Read_u64 s) as [[address s1]|]; [|reflexivity].
  destruct (Read_u64 s1) as [[base s2]|]; [|reflexivity].
  destruct (R s2) as [[entry s3]|]; [|reflexivity].
  apply IH.
Qed.

Lemma Read_Range_Write {E} (W : E -> list byte) (R : istream E) (r : Range E) :
  is_u64 (Range_base_ r) -> reads_back W R (Range_entry_ r) ->
  reads_back (Write_Range W)
    (range_address <~ Read_u64 ;; entry <~ R ;;
     iret (mkRange range_address entry)) r.
Proof.
  intros Hb He rest. unfold Write_Range. rewrite <- app_assoc.
  unfold ibind. rewrite Read_u64_Write by assumption. rewrite (He _).
  destruct r. reflexivity.
Qed.

Lemma Read_RangeMap_Write {E} (W : E -> list byte) (R : istream E)
    (l : RangeMap E) lo rest :
  sorted_above lo l -> Z.of_nat (length l) < 2 ^ 32 ->
  Forall (fun kv => is_u64 kv.1 /\ is_u64 (Range_base_ kv.2) /\
                    reads_back W R (Range_entry_ kv.2)) l ->
  Read_RangeMap R [] (Write_RangeMap W l ++ rest) = Some (l, rest).
Proof.
  intros Hs Hlen Hl. unfold Read_RangeMap, Write_RangeMap.
  rewrite u32_small by (unfold is_u32; lia).
  rewrite <- app_assoc. unfold ibind at 1.
  rewrite Read_u32_Write by (unfold is_u32; lia).
  destruct (Z.eqb_spec (Z.of_nat (length l)) 0) as [H0|H0].
  - destruct l; [reflexivity | simpl in H0; lia].
  - rewrite Nat2Z.id, Read_RangeMap_loop_as_map.
    apply (Read_map_loop_Write (Write_Range W) _ l [] lo rest); [exact Hs|].
    eapply Forall_impl; [exact Hl|].
    intros kv (Hk & Hb & He). split; [assumption|].
    apply Read_Range_Write; assumption.
Qed.

Lemma Read_linked_ptr_Write {T} (W : T -> list byte) (R : istream T)
    (p : linked_ptr T) :
  opt_ok (reads_back W R) p ->
  reads_back (Write_ptr W) (Read_linked_ptr R None) p.
Proof.
  intros Hp rest. unfold Read_linked_ptr, Write_ptr. destruct p as [x|].
  - rewrite <- app_assoc. unfold ibind.
    rewrite Read_u32_Write by (unfold is_u32; lia). simpl.
    rewrite (Hp _). reflexivity.
  - unfold ibind. rewrite Read_u32_Write by (unfold is_u32; lia). reflexivity.
Qed.

Lemma Read_Line_Write l : Line_ok l -> reads_back Write_Line Read_Line l.
Proof.
  intros (Ha & Hs & Hf & Hl) rest. unfold Read_Line, Write_Line.
  rewrite <- !app_assoc. unfold ibind.
  rewrite Read_u64_Write by assumption.
  rewrite Read_u64_Write by assumption.
  rewrite Read_u32_Write by assumption.
  rewrite Read_u32_Write by assumption.
  unfold iret, new_Line. rewrite !u32_to_int by assumption.
  destruct l. reflexivity.
Qed.

Lemma stdmap_ok_weaken {V} n (P Q : Z -> V -> Prop) (m : stdmap V) :
  (forall k v, k < 2 ^ 64 -> P k v -> Q k v) ->
  stdmap_ok n P m -> stdmap_ok n Q m.
Proof.
  intros HPQ (Hs & Hl & Hf). repeat split; try assumption.
  eapply Forall_impl; [exact Hf|]. intros [k v] [Hk HP]. split; auto.
Qed.

Lemma stdmap_ok_keys {V} n (P : Z -> V -> Prop) (m : stdmap V) :
  stdmap_ok n P m -> Forall (fun kv => is_u64 kv.1 /\ P kv.1 kv.2) m.
Proof.
  intros (Hs & Hl & Hf). apply sorted_above_keys in Hs.
  rewrite Forall_forall in *. intros kv Hin.
  specialize (Hs kv Hin). specialize (Hf kv Hin). unfold is_u64.
  simpl in *. split; [lia|tauto].
Qed.

Lemma Read_Function_Write n f :
  Z.of_nat n < 2 ^ 32 -> Function_ok n f ->
  reads_back Write_Function Read_Function f.
Proof.
  intros Hn (Hname & Ha & Hs & Hp & Hlines) rest.
  unfold Read_Function, Write_Function.
  rewrite <- !app_assoc. unfold ibind at 1.
  rewrite Read_string_Write by assumption.
  unfold ibind at 1. rewrite Read_u64_Write by assumption.
  unfold ibind at 1. rewrite Read_u64_Write by assumption.
  unfold ibind at 1. rewrite Read_u32_Write by assumption.
  unfold ibind. cbn [new_Function Function_lines].
  rewrite (Read_RangeMap_Write _ _ _ (-1)).
  - unfold iret. cbn. rewrite u32_to_int by assumption.
    destruct f. reflexivity.
  - apply Hlines.
  - destruct Hlines as (_ & Hl & _). lia.
  - apply stdmap_ok_keys in Hlines.
    eapply Forall_impl; [exact Hlines|].
    intros [k r] [Hk (Hb & Hhigh & He)]. cbn [fst snd] in *.
    split; [assumption|]. split; [unfold is_u64; lia|].
    apply Read_linked_ptr_Write.
    destruct (Range_entry_ r) as [l|]; [|exact I].
    apply Read_Line_Write. exact He.
Qed.

Lemma Read_PublicSymbol_Write p :
  PublicSymbol_ok p -> reads_back Write_PublicSymbol Read_PublicSymbol p.
Proof.
  intros (Hname & Ha & Hp) rest.
  unfold Read_PublicSymbol, Write_PublicSymbol.
  rewrite <- !app_assoc. unfold ibind.
  rewrite Read_string_Write by assumption.
  rewrite Read_u64_Write by assumption.
  rewrite Read_u32_Write by assumption.
  unfold iret, new_PublicSymbol. rewrite u32_to_int by assumption.
  destruct p. reflexivity.
Qed.

Lemma Read_StackFrameInfo_Write i :
  StackFrameInfo_ok i ->
  reads_back Write_StackFrameInfo Read_StackFrameInfo i.
Proof.
  intros (Hv & H1 & H2 & H3 & H4 & H5 & H6 & Hs) rest.
  unfold Read_StackFrameInfo, Write_StackFrameInfo.
  rewrite <- !app_assoc. unfold ibind.
  rewrite !Read_u32_Write by assumption.
  rewrite Read_u32_Write by (destruct (allocates_base_pointer i); unfold is_u32; lia).
  cbn [program_string default_StackFrameInfo].
  rewrite Read_string_Write by assumption.
  unfold iret. destruct i as [? ? ? ? ? ? ? [] ?]; reflexivity.
Qed.

(** Induction over the tree of a [ContainedRangeMap]. *)
Lemma ContainedRangeMap_induction (P : ContainedRangeMap -> Prop) :
  (forall b e, P (mkCRM b e None)) ->
  (forall b e children,
      Forall (fun kv : Z * option ContainedRangeMap => opt_ok P kv.2) children ->
      P (mkCRM b e (Some children))) ->
  forall c, P c.
Proof.
  intros Hleaf Hnode. fix IH 1. intros [b e [children|]]; [|apply Hleaf].
  apply Hnode.
  refine ((fix IHl (l : list (Z * option ContainedRangeMap))
             : Forall (fun kv => opt_ok P kv.2) l :=
             match l with
             | [] => _
             | (k, oc) :: l' => _
             end) children).
  - constructor.
  - constructor; [|apply IHl].
    destruct oc as [child|]; simpl; [apply IH | exact I].
Qed.

Lemma ContainedRangeMap_ok_node n b e children :
  ContainedRangeMap_ok n (mkCRM b e (Some children)) <->
  is_u64 b /\ opt_ok StackFrameInfo_ok e /\
  sorted_above (-1) children /\ (length children <= n)%nat /\
  Forall (fun kv => kv.1 < 2 ^ 64 /\ ptr_ok (ContainedRangeMap_ok n) kv.2)
    children.
Proof.
  cbn [ContainedRangeMap_ok].
  assert (Hall : forall l : list (Z * option ContainedRangeMap),
             (fix all (l : list (Z * option ContainedRangeMap)) : Prop :=
                match l with
                | [] => True
                | (k, oc) :: l' =>
                    (k < 2 ^ 64 /\
                     match oc with
                     | Some child => ContainedRangeMap_ok n child
                     | None => False
                     end) /\ all l'
                end) l <->
             Forall (fun kv => kv.1 < 2 ^ 64 /\
                               ptr_ok (ContainedRangeMap_ok n) kv.2) l).
  { induction l as [|[k oc] l IH].
    - split; [constructor | trivial].
    - rewrite Forall_cons, <- IH. unfold ptr_ok. simpl. tauto. }
  rewrite Hall. tauto.
Qed.

Lemma ContainedRangeMap_ok_leaf n b e :
  ContainedRangeMap_ok n (mkCRM b e None) <->
  is_u64 b /\ opt_ok StackFrameInfo_ok e.
Proof. simpl. tauto. Qed.

Lemma Write_ContainedRangeMap_eq b e m :
  Write_ContainedRangeMap (mkCRM b e m)
  = Write_u64 b ++ Write_ptr Write_StackFrameInfo e
      ++ match m with
         | Some children =>
             Write_u32 1 ++ Write_map (Write_ptr Write_ContainedRangeMap) children
         | None => Write_u32 0
         end.
Proof. destruct m; reflexivity. Qed.

Lemma Read_ContainedRangeMap_eq fuel data :
  Read_ContainedRangeMap (S fuel) data
  = (base <~ Read_u64 ;;
     entry <~ Read_linked_ptr Read_StackFrameInfo (CRM_entry_ data) ;;
     marker <~ Read_u32 ;;
     if marker =? 1 then
       children <~
         Read_map
           (Read_linked_ptr (Read_ContainedRangeMap fuel new_ContainedRangeMap)
              None) [] ;;
       iret (mkCRM base entry (Some children))
     else iret (mkCRM base entry (CRM_map_ data))).
Proof. reflexivity. Qed.

Lemma length_flat_map_In {A B} (f : A -> list B) (l : list A) x :
  In x l -> (length (f x) <= length (flat_map f l))%nat.
Proof.
  induction l as [|y l IH]; intros Hin; [destruct Hin|].
  simpl. rewrite length_app. destruct Hin as [->|Hin]; [lia|].
  specialize (IH Hin). lia.
Qed.

Lemma length_Write_child b e children k child :
  In (k, Some child) children ->
  (length (Write_ContainedRangeMap child)
   < length (Write_ContainedRangeMap (mkCRM b e (Some children))))%nat.
Proof.
  intros Hin. rewrite Write_ContainedRangeMap_eq. unfold Write_map.
  rewrite !length_app.
  pose proof (length_flat_map_In
                (fun kv : Z * option ContainedRangeMap =>
                   Write_u64 kv.1 ++ Write_ptr Write_ContainedRangeMap kv.2)
                children _ Hin) as Hle.
  cbn [fst snd Write_ptr] in Hle. rewrite !length_app in Hle.
  unfold Write_u64, Write_u32 in *. rewrite !length_encode_le in *. lia.
Qed.

Lemma Read_ContainedRangeMap_Write n :
  Z.of_nat n < 2 ^ 32 ->
  forall c, ContainedRangeMap_ok n c ->
  forall fuel rest,
    (length (Write_ContainedRangeMap c) <= fuel)%nat ->
    Read_ContainedRangeMap fuel new_ContainedRangeMap
      (Write_ContainedRangeMap c ++ rest) = Some (c, rest).
Proof.
  intros Hn c. induction c as [b e|b e children IH] using ContainedRangeMap_induction;
    intros Hok fuel rest Hfuel.
  - apply ContainedRangeMap_ok_leaf in Hok. destruct Hok as [Hb He].
    destruct fuel as [|fuel].
    { rewrite Write_ContainedRangeMap_eq, !length_app in Hfuel.
      unfold Write_u64 in Hfuel. rewrite length_encode_le in Hfuel. lia. }
    rewrite Read_ContainedRangeMap_eq, Write_ContainedRangeMap_eq.
    rewrite <- !app_assoc. unfold ibind at 1.
    rewrite Read_u64_Write by assumption.
    unfold ibind at 1. cbn [CRM_entry_ new_ContainedRangeMap].
    rewrite (Read_linked_ptr_Write Write_StackFrameInfo Read_StackFrameInfo e).
    + unfold ibind. rewrite Read_u32_Write by (unfold is_u32; lia). reflexivity.
    + destruct e; [|exact I]. apply Read_StackFrameInfo_Write. exact He.
  - apply ContainedRangeMap_ok_node in Hok.
    destruct Hok as (Hb & He & Hsorted & Hlen & Hchildren).
    destruct fuel as [|fuel].
    { rewrite Write_ContainedRangeMap_eq, !length_app in Hfuel.
      unfold Write_u64 in Hfuel. rewrite length_encode_le in Hfuel. lia. }
    rewrite Read_ContainedRangeMap_eq, Write_ContainedRangeMap_eq.
    rewrite <- !app_assoc. unfold ibind at 1.
    rewrite Read_u64_Write by assumption.
    unfold ibind at 1. cbn [CRM_entry_ new_ContainedRangeMap].
    rewrite (Read_linked_ptr_Write Write_StackFrameInfo Read_StackFrameInfo e);
      [|destruct e; [apply Read_StackFrameInfo_Write; exact He | exact I]].
    unfold ibind at 1. rewrite Read_u32_Write by (unfold is_u32; lia).
    cbn [Z.eqb Pos.eqb]. unfold ibind.
    rewrite (Read_map_Write _ _ children (-1)); [reflexivity|assumption|lia|].
    apply sorted_above_keys in Hsorted.
    rewrite Forall_forall in *. intros [k oc] Hin.
    specialize (Hsorted _ Hin). specialize (Hchildren _ Hin).
    specialize (IH _ Hin). cbn [fst snd] in *.
    split; [unfold is_u64; lia|].
    apply Read_linked_ptr_Write.
    destruct oc as [child|]; [|exact I]. cbn [opt_ok ptr_ok] in *.
    intros rest'. apply IH; [tauto|].
    apply list_elem_of_In in Hin.
    pose proof (length_Write_child b e children k child Hin). lia.
Qed.

Lemma Read_hash_map_loop_Write (l : list (Z * list byte)) acc rest :
  NoDup l.*1 ->
  (forall k, k ∈ l.*1 -> acc !! k = None) ->
  Forall (fun kv => is_u32 kv.1 /\ string_ok kv.2) l ->
  Read_hash_map_loop (length l) acc
    (flat_map (fun kv => Write_u32 kv.1 ++ Write_string kv.2) l ++ rest)
  = Some (acc ∪ list_to_map l, rest).
Proof.
  intros Hnd Hfresh Hl. revert acc Hnd Hfresh.
  induction Hl as [|[k v] l [Hk Hv] Hl IH]; intros acc Hnd Hfresh.
  - simpl. rewrite (right_id_L ∅ (∪)). reflexivity.
  - cbn [length Read_hash_map_loop flat_map fst snd].
    rewrite <- !app_assoc. unfold ibind at 1.
    rewrite Read_u32_Write by assumption.
    unfold ibind at 1. rewrite Read_string_Write by assumption.
    cbn [fmap list_fmap fst] in Hnd, Hfresh.
    apply NoDup_cons in Hnd. destruct Hnd as [Hnotin Hnd].
    assert (Hacc : acc !! k = None) by (apply Hfresh; left).
    unfold hash_insert. rewrite Hacc.
    rewrite IH.
    + cbn [list_to_map foldr uncurry]. simpl.
      rewrite <- insert_union_l, <- insert_union_r by assumption.
      reflexivity.
    + assumption.
    + intros k' Hk'. rewrite lookup_insert_ne.
      * apply Hfresh. right. assumption.
      * intros ->. contradiction.
Qed.

Lemma Read_hash_map_Write (m : gmap Z (list byte)) rest :
  Z.of_nat (size m) < 2 ^ 32 ->
  map_Forall (fun k v => is_u32 k /\ string_ok v) m ->
  Read_hash_map ∅ (Write_hash_map m ++ rest) = Some (m, rest).
Proof.
  intros Hsize Hm. unfold Read_hash_map, Write_hash_map.
  rewrite u32_small by (unfold is_u32; lia).
  rewrite <- app_assoc. unfold ibind.
  rewrite Read_u32_Write by (unfold is_u32; lia).
  destruct (Z.eqb_spec (Z.of_nat (size m)) 0) as [H0|H0].
  - assert (m = ∅) as -> by (apply map_size_empty_inv; lia).
    rewrite map_to_list_empty. reflexivity.
  - rewrite Nat2Z.id, <- length_map_to_list.
    rewrite Read_hash_map_loop_Write.
    + rewrite (left_id_L ∅ (∪)), list_to_map_to_list. reflexivity.
    + apply NoDup_fst_map_to_list.
    + intros. apply lookup_empty.
    + apply map_Forall_to_list in Hm.
      eapply Forall_impl; [exact Hm|]. intros [k v]. simpl. tauto.
Qed.

Lemma stack_info_five (slots : list ContainedRangeMap) :
  length slots = STACK_INFO_LAST ->
  exists s0 s1 s2 s3 s4, slots = [s0; s1; s2; s3; s4].
Proof.
  intros Hlen. unfold STACK_INFO_LAST in Hlen.
  do 5 (destruct slots as [|? slots]; [discriminate|]).
  destruct slots; [|discriminate]. eauto 6.
Qed.

Lemma Read_stack_info_Write n fuel s0 s1 s2 s3 s4 rest :
  Z.of_nat n < 2 ^ 32 ->
  Forall (ContainedRangeMap_ok n) [s0; s1; s2; s3; s4] ->
  (forall s, In s [s0; s1; s2; s3; s4] ->
             (length (Write_ContainedRangeMap s) <= fuel)%nat) ->
  Read_stack_info fuel (seq STACK_INFO_FPO STACK_INFO_LAST)
    (replicate STACK_INFO_LAST new_ContainedRangeMap)
    (Write_ContainedRangeMap s0 ++ Write_ContainedRangeMap s1
       ++ Write_ContainedRangeMap s2 ++ Write_ContainedRangeMap s3
       ++ Write_ContainedRangeMap s4 ++ rest)
  = Some ([s0; s1; s2; s3; s4], rest).
Proof.
  intros Hn Hslots Hfuel. rewrite !Forall_cons in Hslots.
  destruct Hslots as (H0 & H1 & H2 & H3 & H4 & _).
  unfold STACK_INFO_FPO, STACK_INFO_LAST. cbn [seq replicate Read_stack_info].
  unfold ibind at 1. cbn [lookup_total list_lookup_total].
  rewrite (Read_ContainedRangeMap_Write n Hn s0 H0)
    by (apply Hfuel; simpl; tauto).
  unfold ibind at 1. cbn [insert list_insert lookup_total list_lookup_total].
  rewrite (Read_ContainedRangeMap_Write n Hn s1 H1)
    by (apply Hfuel; simpl; tauto).
  unfold ibind at 1. cbn [insert list_insert lookup_total list_lookup_total].
  rewrite (Read_ContainedRangeMap_Write n Hn s2 H2)
    by (apply Hfuel; simpl; tauto).
  unfold ibind at 1. cbn [insert list_insert lookup_total list_lookup_total].
  rewrite (Read_ContainedRangeMap_Write n Hn s3 H3)
    by (apply Hfuel; simpl; tauto).
  unfold ibind at 1. cbn [insert list_insert lookup_total list_lookup_total].
  rewrite (Read_ContainedRangeMap_Write n Hn s4 H4)
    by (apply Hfuel; simpl; tauto).
  reflexivity.
Qed.

Lemma Deserialize_Write_Module name m :
  Module_wf m ->
  Deserialize (ModuleSerializer_of_istream (Write_Module m)) (new_Module name)
  = Some (true, renamed name m).
Proof.
  intros (n & Hn & Hsize & Hfiles & Hfuncs & Hpubs & Hlen & Hslots).
  destruct m as [nm files funcs pubs slots]. cbn [files_ functions_
    public_symbols_ stack_info_] in *.
  destruct (stack_info_five _ Hlen) as (s0 & s1 & s2 & s3 & s4 & ->).
  unfold Deserialize, ModuleSerializer_of_istream, Write_Module.
  cbn [instream_ files_ functions_ public_symbols_ stack_info_].
  rewrite Read_u32_Write by (unfold is_u32, SERIALIZE_FORMAT; lia).
  rewrite Z.eqb_refl. cbn [negb].
  unfold Read_Module.
  set (stream := Write_hash_map files ++ _).
  assert (Hstream : stream =
    Write_hash_map files
      ++ Write_RangeMap (Write_ptr Write_Function) funcs
      ++ Write_map (Write_ptr Write_PublicSymbol) pubs
      ++ Write_ContainedRangeMap s0 ++ Write_ContainedRangeMap s1
      ++ Write_ContainedRangeMap s2 ++ Write_ContainedRangeMap s3
      ++ Write_ContainedRangeMap s4 ++ []) by reflexivity.
  assert (Hfuel : forall s, In s [s0; s1; s2; s3; s4] ->
                    (length (Write_ContainedRangeMap s) <= length stream)%nat).
  { intros s Hin. rewrite Hstream, !length_app. simpl in Hin.
    destruct Hin as [<-|[<-|[<-|[<-|[<-|[]]]]]]; lia. }
  set (fuel := length stream) in *. clearbody fuel.
  rewrite Hstream. clear Hstream stream.
  cbn [new_Module files_ functions_ public_symbols_ stack_info_ name_].
  unfold ibind at 1. rewrite Read_hash_map_Write by (assumption || lia).
  unfold ibind at 1.
  rewrite (Read_RangeMap_Write _ _ _ (-1));
    [|apply Hfuncs|destruct Hfuncs as (_ & ? & _); lia|].
  2:{ apply stdmap_ok_keys in Hfuncs.
      eapply Forall_impl; [exact Hfuncs|].
      intros [k r] [Hk (Hb & Hhigh & He)]. cbn [fst snd] in *.
      split; [assumption|]. split; [unfold is_u64; lia|].
      apply Read_linked_ptr_Write.
      destruct (Range_entry_ r) as [f|]; [|exact I].
      apply (Read_Function_Write n); assumption. }
  unfold ibind at 1.
  rewrite (Read_map_Write _ _ _ (-1));
    [|apply Hpubs|destruct Hpubs as (_ & ? & _); lia|].
  2:{ apply stdmap_ok_keys in Hpubs.
      eapply Forall_impl; [exact Hpubs|].
      intros [k p] [Hk Hp]. cbn [fst snd] in *.
      split; [assumption|].
      apply Read_linked_ptr_Write.
      destruct p as [p|]; [|exact I].
      apply Read_PublicSymbol_Write. exact Hp. }
  unfold ibind.
  rewrite (Read_stack_info_Write n fuel s0 s1 s2 s3 s4 []) by assumption.
  reflexivity.
Qed.

(** ** [Equals] holds between a well-formed value and itself *)

Lemma Equals_string_refl s : Equals_string s s = true.
Proof. unfold Equals_string. apply bool_decide_eq_true. reflexivity. Qed.

Lemma Equals_linked_ptr_refl {U} (Equals_U : U -> U -> bool) (p : option U) :
  opt_ok (fun x => Equals_U x x = true) p -> Equals_linked_ptr Equals_U p p = true.
Proof. destruct p; simpl; auto. Qed.

Lemma Equals_map_refl {V} (Equals_V : V -> V -> bool) lo (m : stdmap V) :
  sorted_above lo m ->
  Forall (fun kv => Equals_V kv.2 kv.2 = true) m ->
  Equals_map Equals_V m m = true.
Proof.
  intros Hs Hm. unfold Equals_map. rewrite Nat.eqb_refl. cbn [negb].
  apply forallb_forall. intros [k v] Hin. cbn [fst snd].
  rewrite (map_find_sorted lo m k v Hs Hin).
  rewrite Forall_forall in Hm. apply list_elem_of_In in Hin.
  exact (Hm _ Hin).
Qed.

Lemma Equals_hash_map_refl {V} (Equals_V : V -> V -> bool) (m : gmap Z V) :
  map_Forall (fun _ v => Equals_V v v = true) m ->
  Equals_hash_map Equals_V m m = true.
Proof.
  intros Hm. unfold Equals_hash_map. rewrite Nat.eqb_refl. cbn [negb].
  apply forallb_forall. intros [k v] Hin. cbn [fst snd].
  apply list_elem_of_In, elem_of_map_to_list in Hin. rewrite Hin.
  exact (Hm k v Hin).
Qed.

Lemma Equals_Line_refl l : Equals_Line l l = true.
Proof. unfold Equals_Line. rewrite !Z.eqb_refl. reflexivity. Qed.

Lemma Equals_PublicSymbol_refl p : Equals_PublicSymbol p p = true.
Proof.
  unfold Equals_PublicSymbol. rewrite Equals_string_refl, !Z.eqb_refl.
  reflexivity.
Qed.

Lemma Equals_StackFrameInfo_refl i : Equals_StackFrameInfo i i = true.
Proof.
  unfold Equals_StackFrameInfo.
  rewrite Equals_string_refl, !Z.eqb_refl, Bool.eqb_reflx. reflexivity.
Qed.

Lemma Equals_Function_refl n f : Function_ok n f -> Equals_Function f f = true.
Proof.
  intros (_ & _ & _ & _ & Hs & _ & _). unfold Equals_Function.
  rewrite Equals_string_refl, !Z.eqb_refl. cbn [andb].
  unfold Equals_RangeMap. apply (Equals_map_refl _ (-1)); [exact Hs|].
  apply Forall_forall. intros [k r] _. cbn [snd]. unfold Equals_Range.
  rewrite Z.eqb_refl. cbn [andb]. apply Equals_linked_ptr_refl.
  destruct (Range_entry_ r); simpl; [apply Equals_Line_refl | exact I].
Qed.

Lemma Equals_ContainedRangeMap_eq ba ea ma bb eb mb :
  Equals_ContainedRangeMap (mkCRM ba ea ma) (mkCRM bb eb mb)
  = (ba =? bb) && Equals_linked_ptr Equals_StackFrameInfo ea eb &&
    match ma, mb with
    | Some la, Some lb =>
        Equals_map (Equals_linked_ptr Equals_ContainedRangeMap) la lb
    | None, None => true
    | _, _ => false
    end.
Proof. destruct ma, mb; reflexivity. Qed.

Lemma Equals_ContainedRangeMap_refl n c :
  ContainedRangeMap_ok n c -> Equals_ContainedRangeMap c c = true.
Proof.
  induction c as [b e|b e children IH] using ContainedRangeMap_induction;
    intros Hok; rewrite Equals_ContainedRangeMap_eq, Z.eqb_refl; cbn [andb].
  - rewrite Equals_linked_ptr_refl; [reflexivity|].
    destruct e; simpl; [apply Equals_StackFrameInfo_refl | exact I].
  - apply ContainedRangeMap_ok_node in Hok.
    destruct Hok as (_ & _ & Hsorted & _ & Hchildren).
    rewrite Equals_linked_ptr_refl
      by (destruct e; simpl; [apply Equals_StackFrameInfo_refl | exact I]).
    cbn [andb]. apply (Equals_map_refl _ (-1)); [exact Hsorted|].
    rewrite Forall_forall in *. intros [k oc] Hin.
    specialize (IH _ Hin). specialize (Hchildren _ Hin). cbn [fst snd] in *.
    apply Equals_linked_ptr_refl.
    destruct oc as [child|]; simpl in *; [apply IH; tauto | exact I].
Qed.

(** [Equals] does not look at [name_]. *)
Lemma Module_Equals_renamed name a b :
  Module_Equals a (renamed name b) = Module_Equals a b.
Proof. reflexivity. Qed.

Lemma Module_Equals_refl n m : Module_ok n m -> Module_Equals m m = true.
Proof.
  intros (_ & _ & Hfuncs & Hpubs & Hlen & Hslots).
  destruct (stack_info_five _ Hlen) as (s0 & s1 & s2 & s3 & s4 & Hs).
  unfold Module_Equals. rewrite Hs in *.
  rewrite !Forall_cons in Hslots.
  destruct Hslots as (H0 & H1 & H2 & H3 & H4 & _).
  unfold STACK_INFO_FPO, STACK_INFO_TRAP, STACK_INFO_TSS, STACK_INFO_STANDARD,
    STACK_INFO_FRAME_DATA. cbn [lookup_total list_lookup_total].
  rewrite (Equals_ContainedRangeMap_refl n s0 H0),
    (Equals_ContainedRangeMap_refl n s1 H1),
    (Equals_ContainedRangeMap_refl n s2 H2),
    (Equals_ContainedRangeMap_refl n s3 H3),
    (Equals_ContainedRangeMap_refl n s4 H4).
  rewrite !andb_true_r. rewrite Equals_hash_map_refl
    by (intros k v _; apply Equals_string_refl).
  cbn [andb]. apply andb_true_iff. split.
  - unfold Equals_RangeMap. apply (Equals_map_refl _ (-1)); [apply Hfuncs|].
    destruct Hfuncs as (_ & _ & Hf). eapply Forall_impl; [exact Hf|].
    intros [k r] [_ (_ & _ & He)]. cbn [fst snd] in *. unfold Equals_Range.
    rewrite Z.eqb_refl. cbn [andb]. apply Equals_linked_ptr_refl.
    destruct (Range_entry_ r) as [f|]; simpl in *; [|exact I].
    apply (Equals_Function_refl n). exact He.
  - unfold Equals_AddressMap. apply (Equals_map_refl _ (-1)); [apply Hpubs|].
    apply Forall_forall. intros [k p] _. cbn [snd].
    apply Equals_linked_ptr_refl.
    destruct p; simpl; [apply Equals_PublicSymbol_refl | exact I].
Qed.

(** ** The parser builds well-formed modules *)

(** *** Tokens are C strings within the line buffer *)

Lemma string_ok_nil : string_ok [].
Proof. split; [constructor | simpl; lia]. Qed.

Lemma string_ok_cons_inv b s : string_ok (b :: s) -> string_ok s.
Proof.
  intros [Hn Hl]. split; [inversion Hn; assumption | simpl in Hl; lia].
Qed.

Lemma string_ok_skip_while p s : string_ok s -> string_ok (skip_while p s).
Proof.
  induction s as [|b s IH]; intros Hs; simpl; [exact Hs|].
  destruct (p b); [apply IH; eapply string_ok_cons_inv; exact Hs | exact Hs].
Qed.

Lemma string_ok_span_until p s :
  string_ok s -> string_ok (span_until p s).1 /\ string_ok (span_until p s).2.
Proof.
  induction s as [|b s IH]; intros Hs; simpl.
  - split; apply string_ok_nil.
  - destruct (p b); simpl.
    + split; [apply string_ok_nil | exact Hs].
    + destruct (IH (string_ok_cons_inv _ _ Hs)) as [[Hn1 Hl1] H2].
      destruct Hs as [Hn Hl]. split; [|exact H2]. split.
      * inversion Hn; subst. constructor; assumption.
      * assert (Hle : forall t, (length (span_until p t).1 <= length t)%nat).
        { induction t as [|c t IHt]; simpl; [lia|].
          destruct (p c); simpl; lia. }
        specialize (Hle s). simpl in *. lia.
Qed.

Lemma string_ok_drop n s : string_ok s -> string_ok (drop n s).
Proof.
  intros [Hn Hl]. split.
  - unfold nul_free in *. apply Forall_drop. exact Hn.
  - rewrite length_drop. lia.
Qed.

Lemma string_ok_strtok_r s delim :
  string_ok s ->
  opt_ok string_ok (strtok_r s delim).1 /\ string_ok (strtok_r s delim).2.
Proof.
  intros Hs. unfold strtok_r.
  pose proof (string_ok_skip_while (is_delim delim) s Hs) as Hs1.
  destruct (skip_while (is_delim delim) s) as [|b s1] eqn:E.
  - simpl. split; [exact I | apply string_ok_nil].
  - destruct (string_ok_span_until (is_delim delim) (b :: s1) Hs1) as [H1 H2].
    cbn [fst snd opt_ok]. split; [exact H1|].
    destruct (span_until (is_delim delim) (b :: s1)).2 as [|c save] eqn:E2.
    + apply string_ok_nil.
    + eapply string_ok_cons_inv. exact H2.
Qed.

Lemma Tokenize_loop_ok fuel token remaining save_ptr tokens :
  opt_ok string_ok token -> string_ok save_ptr -> Forall string_ok tokens ->
  let r := Tokenize_loop fuel token remaining save_ptr tokens in
  string_ok r.1.2 /\ Forall string_ok r.2.
Proof.
  revert token remaining save_ptr tokens.
  induction fuel as [|fuel IH]; intros token remaining save_ptr tokens Ht Hs Hts;
    cbn [Tokenize_loop].
  - split; assumption.
  - destruct token as [t|]; [|split; assumption].
    destruct (0 <? remaining - 1); [|split; assumption].
    assert (Hts' : Forall string_ok (tokens ++ [t])).
    { apply Forall_app. split; [assumption|]. constructor; [exact Ht|constructor]. }
    destruct (1 <? remaining - 1).
    + destruct (string_ok_strtok_r save_ptr delim_space_cr_lf Hs) as [H1 H2].
      apply IH; assumption.
    + apply IH; assumption.
Qed.

Lemma Tokenize_ok line max_tokens :
  string_ok line -> Forall string_ok (Tokenize line max_tokens).2.
Proof.
  intros Hline. unfold Tokenize. cbn [snd].
  destruct (string_ok_strtok_r line delim_space_cr_lf Hline) as [H1 H2].
  destruct (Tokenize_loop_ok (S (Z.to_nat max_tokens))
              (strtok_r line delim_space_cr_lf).1 max_tokens
              (strtok_r line delim_space_cr_lf).2 [] H1 H2 (List.Forall_nil _))
    as [Hsave Htokens].
  destruct (_ =? 0); [|exact Htokens].
  destruct (string_ok_strtok_r _ delim_cr_lf Hsave) as [H3 _].
  destruct (strtok_r _ delim_cr_lf).1 as [t|]; [|exact Htokens].
  apply Forall_app. split; [assumption|]. constructor; [exact H3|constructor].
Qed.

Lemma token_ok (tokens : list (list byte)) i :
  Forall string_ok tokens -> string_ok (tokens !!! i).
Proof.
  intros Hts. destruct (tokens !! i) as [t|] eqn:E.
  - rewrite (list_lookup_total_correct _ _ _ E).
    rewrite Forall_forall in Hts. apply Hts.
    eapply list_elem_of_lookup_2. exact E.
  - rewrite list_lookup_total_alt, E. apply string_ok_nil.
Qed.

(** *** Numbers fit their types *)

Lemma digit_of_nonneg b d : digit_of b = Some d -> 0 <= d.
Proof.
  unfold digit_of. intros Hd.
  destruct (Z.leb_spec 48 (Z_of_byte b)); cbn [andb] in Hd.
  - destruct (Z.leb_spec (Z_of_byte b) 57); [inversion Hd; lia|].
    destruct (Z.leb_spec 97 (Z_of_byte b)); cbn [andb] in Hd.
    + destruct (Z.leb_spec (Z_of_byte b) 122); [inversion Hd; lia|].
      destruct (Z.leb_spec 65 (Z_of_byte b)); cbn [andb] in Hd; [|discriminate].
      destruct (Z.leb_spec (Z_of_byte b) 90); [inversion Hd; lia|discriminate].
    + destruct (Z.leb_spec 65 (Z_of_byte b)); cbn [andb] in Hd; [|discriminate].
      destruct (Z.leb_spec (Z_of_byte b) 90); [inversion Hd; lia|discriminate].
  - destruct (Z.leb_spec 97 (Z_of_byte b)); cbn [andb] in Hd; [lia|].
    destruct (Z.leb_spec 65 (Z_of_byte b)); cbn [andb] in Hd; [lia|discriminate].
Qed.

Lemma digits_nonneg base s acc : 0 <= base -> 0 <= acc -> 0 <= digits base s acc.
Proof.
  intros Hbase. revert acc. induction s as [|b s IH]; intros acc Hacc; simpl.
  - exact Hacc.
  - destruct (digit_of b) as [d|] eqn:E; [|exact Hacc].
    apply digit_of_nonneg in E.
    destruct (d <? base); [|exact Hacc]. apply IH. nia.
Qed.

Lemma strtoull_range s base : 0 <= base -> is_u64 (strtoull s base).
Proof.
  intros Hbase. unfold strtoull, is_u64.
  assert (Hm : 0 <= (scan_number base s).2)
    by (unfold scan_number; cbn [snd]; apply digits_nonneg; lia).
  destruct (Z.ltb_spec (2 ^ 64 - 1) (scan_number base s).2); [lia|].
  destruct (scan_number base s).1; [apply u64_range | lia].
Qed.

(** *** The stores keep the maps well formed *)

Lemma stdmap_ok_mono {V} n n' (P Q : Z -> V -> Prop) (m : stdmap V) :
  (n <= n')%nat -> (forall k v, P k v -> Q k v) ->
  stdmap_ok n P m -> stdmap_ok n' Q m.
Proof.
  intros Hn HPQ (Hs & Hl & Hf). repeat split; [assumption|lia|].
  eapply Forall_impl; [exact Hf|]. intros [k v] [Hk HP]. split; auto.
Qed.

Lemma Range_ok_impl {E} (P Q : E -> Prop) high (r : Range E) :
  (forall e, P e -> Q e) -> Range_ok P high r -> Range_ok Q high r.
Proof. intros HPQ (Hb & Hh & He). repeat split; auto; tauto. Qed.

Lemma ptr_ok_impl {T} (P Q : T -> Prop) (p : option T) :
  (forall x, P x -> Q x) -> ptr_ok P p -> ptr_ok Q p.
Proof. destruct p; simpl; auto. Qed.

Lemma Function_ok_mono n n' f :
  (n <= n')%nat -> Function_ok n f -> Function_ok n' f.
Proof.
  intros Hn (H1 & H2 & H3 & H4 & H5).
  split; [exact H1|]. split; [exact H2|]. split; [exact H3|].
  split; [exact H4|]. eapply stdmap_ok_mono; [exact Hn| |exact H5]. auto.
Qed.

Lemma ContainedRangeMap_ok_mono n n' c :
  (n <= n')%nat -> ContainedRangeMap_ok n c -> ContainedRangeMap_ok n' c.
Proof.
  intros Hn. induction c as [b e|b e children IH] using ContainedRangeMap_induction.
  - rewrite !ContainedRangeMap_ok_leaf. tauto.
  - rewrite !ContainedRangeMap_ok_node.
    intros (Hb & He & Hs & Hl & Hc).
    split; [exact Hb|]. split; [exact He|]. split; [exact Hs|]. split; [lia|].
    rewrite Forall_forall in *. intros [k oc] Hin.
    specialize (IH _ Hin). specialize (Hc _ Hin). cbn [fst snd] in *.
    split; [tauto|]. destruct oc as [child|]; simpl in *; [|tauto].
    apply IH. tauto.
Qed.

Lemma Module_ok_mono n n' m : (n <= n')%nat -> Module_ok n m -> Module_ok n' m.
Proof.
  intros Hn (H1 & H2 & H3 & H4 & H5 & H6).
  split; [lia|]. split; [exact H2|]. split; [|split; [|split; [exact H5|]]].
  - eapply stdmap_ok_mono; [exact Hn| |exact H3]. intros k r.
    apply Range_ok_impl. intros e. apply ptr_ok_impl. intros f.
    apply Function_ok_mono. exact Hn.
  - eapply stdmap_ok_mono; [exact Hn| |exact H4]. auto.
  - eapply Forall_impl; [exact H6|]. intros c.
    apply ContainedRangeMap_ok_mono. exact Hn.
Qed.

Lemma stdmap_ok_insert {V} n (P : Z -> V -> Prop) (m : stdmap V) k v :
  stdmap_ok n P m -> 0 <= k < 2 ^ 64 -> P k v ->
  stdmap_ok (S n) P (map_insert k v m).
Proof.
  intros (Hs & Hl & Hf) Hk Hv. repeat split.
  - apply sorted_above_insert; [lia|assumption].
  - pose proof (length_map_insert k v m). lia.
  - apply Forall_map_insert; [|assumption]. simpl. split; [lia|assumption].
Qed.

Lemma stdmap_ok_nil {V} n (P : Z -> V -> Prop) : stdmap_ok n P [].
Proof. repeat split; [simpl; lia | constructor]. Qed.

Lemma RangeMap_StoreRange_ok {E} n (P : E -> Prop) (m : RangeMap E)
    base size entry :
  stdmap_ok n (Range_ok P) m -> is_u64 base -> is_u64 size -> P entry ->
  stdmap_ok (S n) (Range_ok P) (RangeMap_StoreRange m base size entry).2.
Proof.
  intros Hm Hb Hs He. unfold RangeMap_StoreRange.
  assert (Hmono : stdmap_ok (S n) (Range_ok P) m)
    by (eapply stdmap_ok_mono; [| |exact Hm]; [lia|auto]).
  destruct (Z.eqb_spec size 0); cbn [orb]; [exact Hmono|].
  destruct (Z.leb_spec (2 ^ 64) (base + size)); [exact Hmono|].
  destruct (existsb _ m); [exact Hmono|]. cbn [snd].
  unfold is_u64 in *.
  apply stdmap_ok_insert; [assumption|lia|].
  unfold Range_ok. cbn [Range_base_ Range_entry_]. repeat split; try lia.
  assumption.
Qed.

Lemma AddressMap_Store_ok {E} n (P : Z -> E -> Prop) (m : AddressMap E)
    address entry :
  stdmap_ok n P m -> is_u64 address -> P address entry ->
  stdmap_ok (S n) P (AddressMap_Store m address entry).2.
Proof.
  intros Hm Ha He. unfold AddressMap_Store.
  destruct (map_find address m); cbn [snd].
  - eapply stdmap_ok_mono; [| |exact Hm]; [lia|auto].
  - apply stdmap_ok_insert; assumption.
Qed.

Lemma CRM_store_eq b e m base high entry :
  CRM_store (mkCRM b e m) base high entry
  = match m with
    | None =>
        Some (true, mkCRM b e (Some [(high, Some (mkCRM base entry None))]))
    | Some children =>
        match store_in_child (fun ch => CRM_store ch base high entry)
                base high children with
        | None => None
        | Some (Some (ok, children')) => Some (ok, mkCRM b e (Some children'))
        | Some None =>
            match store_among base high entry children with
            | Some children' => Some (true, mkCRM b e (Some children'))
            | None => Some (false, mkCRM b e m)
            end
        end
    end.
Proof. destruct m; reflexivity. Qed.

Lemma store_in_child_ok n store base high :
  forall l lo,
    sorted_above lo l ->
    Forall (fun kv => kv.1 < 2 ^ 64 /\ ptr_ok (ContainedRangeMap_ok n) kv.2) l ->
    Forall (fun kv : Z * option ContainedRangeMap =>
              opt_ok (fun ch =>
                        ContainedRangeMap_ok n ch ->
                        exists r, store ch = Some r /\
                                  ContainedRangeMap_ok (S n) r.2) kv.2) l ->
    exists d, store_in_child store base high l = Some d /\
      match d with
      | Some (_, l') =>
          sorted_above lo l' /\ length l' = length l /\
          Forall (fun kv => kv.1 < 2 ^ 64 /\
                            ptr_ok (ContainedRangeMap_ok (S n)) kv.2) l'
      | None => True
      end.
Proof.
  induction l as [|[k oc] l IH]; intros lo Hs Hok Hstore.
  - exists None. split; [reflexivity | exact I].
  - apply Forall_cons in Hok. destruct Hok as [[Hk Hch] Hok].
    apply Forall_cons in Hstore. destruct Hstore as [Hst Hstore].
    destruct Hs as [Hlo Hs]. cbn [fst snd] in *.
    destruct oc as [ch|]; [|destruct Hch]. cbn [ptr_ok opt_ok] in *.
    assert (Hmono : Forall (fun kv => kv.1 < 2 ^ 64 /\
                              ptr_ok (ContainedRangeMap_ok (S n)) kv.2) l).
    { eapply Forall_impl; [exact Hok|]. intros [k' oc'] [? ?].
      split; [assumption|]. eapply ptr_ok_impl; [|eassumption].
      intros c. apply ContainedRangeMap_ok_mono. lia. }
    cbn [store_in_child].
    destruct ((CRM_base_ ch <=? base) && (high <=? k)).
    + destruct ((CRM_base_ ch =? base) && (k =? high)).
      * eexists. split; [reflexivity|]. split; [split; assumption|].
        split; [reflexivity|]. constructor; [|exact Hmono].
        split; [assumption|]. simpl.
        eapply ContainedRangeMap_ok_mono; [|exact Hch]. lia.
      * destruct (Hst Hch) as ([ok ch'] & -> & Hch').
        eexists. split; [reflexivity|]. split; [split; assumption|].
        split; [reflexivity|]. constructor; [|exact Hmono].
        split; assumption.
    + destruct (IH k Hs Hok Hstore) as (d & Hd & Hres).
      fold (store_in_child store base high l). rewrite Hd.
      destruct d as [[ok l'']|].
      * eexists. split; [reflexivity|].
        destruct Hres as (Hs' & Hl' & Hf').
        split; [split; assumption|]. split; [simpl; congruence|].
        constructor; [|exact Hf']. split; [assumption|]. simpl.
        eapply ContainedRangeMap_ok_mono; [|exact Hch]. lia.
      * exists None. split; [reflexivity | exact I].
Qed.

Lemma CRM_store_ok n base high entry :
  0 <= base <= high -> high < 2 ^ 64 - 1 -> opt_ok StackFrameInfo_ok entry ->
  forall c, ContainedRangeMap_ok n c ->
  exists r, CRM_store c base high entry = Some r /\
            ContainedRangeMap_ok (S n) r.2.
Proof.
  intros Hbase Hhigh Hentry c.
  induction c as [b e|b e children IH] using ContainedRangeMap_induction;
    intros Hok; rewrite CRM_store_eq.
  - apply ContainedRangeMap_ok_leaf in Hok. destruct Hok as [Hb He].
    eexists. split; [reflexivity|]. cbn [snd].
    apply ContainedRangeMap_ok_node.
    split; [exact Hb|]. split; [exact He|]. split; [simpl; lia|].
    split; [simpl; lia|].
    constructor; [|constructor]. cbn [fst snd ptr_ok].
    split; [lia|]. apply ContainedRangeMap_ok_leaf.
    split; [unfold is_u64; lia | assumption].
  - pose proof Hok as Hok0.
    apply ContainedRangeMap_ok_node in Hok.
    destruct Hok as (Hb & He & Hs & Hl & Hc).
    destruct (store_in_child_ok n (fun ch => CRM_store ch base high entry)
                base high children (-1) Hs Hc IH) as (d & -> & Hres).
    destruct d as [[ok children']|].
    + eexists. split; [reflexivity|]. cbn [snd].
      destruct Hres as (Hs' & Hl' & Hf').
      apply ContainedRangeMap_ok_node.
      split; [exact Hb|]. split; [exact He|]. split; [exact Hs'|].
      split; [lia | exact Hf'].
    + unfold store_among.
      destruct (existsb _ _).
      * eexists. split; [reflexivity|]. cbn [snd].
        eapply ContainedRangeMap_ok_mono; [|exact Hok0]. lia.
      * eexists. split; [reflexivity|]. cbn [snd].
        assert (Hmono : Forall (fun kv => kv.1 < 2 ^ 64 /\
                                  ptr_ok (ContainedRangeMap_ok (S n)) kv.2)
                          children).
        { eapply Forall_impl; [exact Hc|]. intros [k' oc'] [? ?].
          split; [assumption|]. eapply ptr_ok_impl; [|eassumption].
          intros c. apply ContainedRangeMap_ok_mono. lia. }
        apply ContainedRangeMap_ok_node.
        split; [exact Hb|]. split; [exact He|]. split; [|split].
        -- apply sorted_above_insert; [lia|].
           apply sorted_above_filter. exact Hs.
        -- pose proof (length_map_insert high
                         (Some (mkCRM base entry
                            match List.filter (enclosed_by base high) children with
                            | [] => None
                            | _ :: _ =>
                                Some (List.filter (enclosed_by base high) children)
                            end))
                         (List.filter
                            (fun kc => negb (enclosed_by base high kc)) children)).
           pose proof (length_filter_le
                         (fun kc => negb (enclosed_by base high kc)) children).
           lia.
        -- apply Forall_map_insert; [|apply Forall_filter_list; exact Hmono].
           cbn [fst snd ptr_ok]. split; [lia|].
           destruct (List.filter (enclosed_by base high) children) as [|x inner] eqn:E.
           ++ apply ContainedRangeMap_ok_leaf.
              split; [unfold is_u64; lia | assumption].
           ++ apply ContainedRangeMap_ok_node.
              split; [unfold is_u64; lia|]. split; [assumption|].
              rewrite <- E. split; [apply sorted_above_filter; exact Hs|].
              split; [|apply Forall_filter_list; exact Hmono].
              pose proof (length_filter_le (enclosed_by base high) children).
              lia.
Qed.

Lemma CRM_StoreRange_ok n c base size entry :
  ContainedRangeMap_ok n c -> is_u64 base -> is_u64 size ->
  opt_ok StackFrameInfo_ok entry ->
  exists r, CRM_StoreRange c base size entry = Some r /\
            ContainedRangeMap_ok (S n) r.2.
Proof.
  intros Hc Hb Hs He. unfold CRM_StoreRange, is_u64 in *.
  destruct (Z.eqb_spec size 0); cbn [orb].
  { eexists. split; [reflexivity|]. eapply ContainedRangeMap_ok_mono; [|exact Hc]. lia. }
  destruct (Z.leb_spec (2 ^ 64) (base + size)).
  { eexists. split; [reflexivity|]. eapply ContainedRangeMap_ok_mono; [|exact Hc]. lia. }
  apply CRM_store_ok; try assumption; lia.
Qed.

(** *** Every step of the parser keeps the module well formed *)

Lemma size_hash_insert {V} k (v : V) (m : gmap Z V) :
  (size (hash_insert k v m) <= S (size m))%nat.
Proof.
  unfold hash_insert. destruct (m !! k) eqn:E; [lia|].
  rewrite map_size_insert_None by assumption. lia.
Qed.

Lemma map_Forall_hash_insert {V} (P : Z -> V -> Prop) k v (m : gmap Z V) :
  P k v -> map_Forall P m -> map_Forall P (hash_insert k v m).
Proof.
  intros Hkv Hm. unfold hash_insert. destruct (m !! k); [assumption|].
  apply map_Forall_insert_2; assumption.
Qed.

Lemma ParseFile_ok n this file_line :
  Module_ok n this -> string_ok file_line ->
  Module_ok (S n) (ParseFile this file_line).2.
Proof.
  intros Hm Hline.
  assert (Hmono : Module_ok (S n) this) by (eapply Module_ok_mono; [|exact Hm]; lia).
  unfold ParseFile.
  pose proof (Tokenize_ok (drop 5 file_line) 2 (string_ok_drop 5 _ Hline)) as Htk.
  destruct (Tokenize (drop 5 file_line) 2) as [ok tokens]. cbn [fst snd] in *.
  destruct ok; cbn [negb]; [|exact Hmono].
  destruct (atoi (tokens !!! 0%nat) <? 0); [exact Hmono|]. cbn [snd].
  destruct Hm as (H1 & H2 & _). destruct Hmono as (_ & _ & H3 & H4 & H5 & H6).
  split; [|split; [|split; [exact H3|split; [exact H4|split; [exact H5|exact H6]]]]];
    cbn [set_files_ files_].
  - pose proof (size_hash_insert (u32 (atoi (tokens !!! 0%nat)))
                  (tokens !!! 1%nat) (files_ this)). lia.
  - apply map_Forall_hash_insert; [|exact H2].
    split; [apply u32_range | apply token_ok; exact Htk].
Qed.

Lemma ParseFunction_ok n function_line f :
  string_ok function_line -> ParseFunction function_line = Some f ->
  Function_ok n f.
Proof.
  intros Hline. unfold ParseFunction.
  pose proof (Tokenize_ok (drop 5 function_line) 4 (string_ok_drop 5 _ Hline))
    as Htk.
  destruct (Tokenize (drop 5 function_line) 4) as [ok tokens]. cbn [fst snd] in *.
  destruct ok; cbn [negb]; [|discriminate]. intros [= <-].
  unfold Function_ok, new_Function.
  cbn [Function_name Function_address Function_size Function_parameter_size
       Function_lines].
  split; [apply token_ok; exact Htk|].
  split; [apply strtoull_range; lia|]. split; [apply strtoull_range; lia|].
  split; [apply u32_range | apply stdmap_ok_nil].
Qed.

Lemma ParseLine_ok line_line l :
  ParseLine line_line = Some l -> Line_ok l.
Proof.
  unfold ParseLine. destruct (Tokenize line_line 4) as [ok tokens].
  cbn [fst snd]. destruct ok; cbn [negb]; [|discriminate].
  destruct (atoi (tokens !!! 2%nat) <=? 0); [discriminate|]. intros [= <-].
  unfold Line_ok, new_Line.
  cbn [Line_address Line_size Line_source_file_id Line_line].
  split; [apply strtoull_range; lia|]. split; [apply strtoull_range; lia|].
  split; apply u32_range.
Qed.

Lemma ParsePublicSymbol_ok n this public_line :
  Module_ok n this -> string_ok public_line ->
  Module_ok (S n) (ParsePublicSymbol this public_line).2.
Proof.
  intros Hm Hline.
  assert (Hmono : Module_ok (S n) this) by (eapply Module_ok_mono; [|exact Hm]; lia).
  unfold ParsePublicSymbol.
  pose proof (Tokenize_ok (drop 7 public_line) 3 (string_ok_drop 7 _ Hline)) as Htk.
  destruct (Tokenize (drop 7 public_line) 3) as [ok tokens]. cbn [fst snd] in *.
  destruct ok; cbn [negb]; [|exact Hmono].
  destruct (strtoull (tokens !!! 0%nat) 16 =? 0); [exact Hmono|]. cbn [snd].
  destruct Hm as (_ & _ & _ & H4 & _).
  destruct Hmono as (H1 & H2 & H3 & _ & H5 & H6).
  split; [exact H1|]. split; [exact H2|]. split; [exact H3|].
  split; [|split; [exact H5|exact H6]].
  cbn [set_public_symbols_ public_symbols_].
  apply AddressMap_Store_ok; [exact H4 | apply strtoull_range; lia|].
  cbn [ptr_ok]. unfold PublicSymbol_ok, new_PublicSymbol.
  cbn [PublicSymbol_name PublicSymbol_address PublicSymbol_parameter_size].
  split; [apply token_ok; exact Htk|].
  split; [apply strtoull_range; lia | apply u32_range].
Qed.

Lemma Forall_lookup_total_lt {A} `{Inhabited A} (P : A -> Prop) (l : list A) i :
  Forall P l -> (i < length l)%nat -> P (l !!! i).
Proof.
  intros Hl Hi. destruct (lookup_lt_is_Some_2 l i Hi) as [x Hx].
  rewrite (list_lookup_total_correct _ _ _ Hx).
  rewrite Forall_forall in Hl. apply Hl. eapply list_elem_of_lookup_2. exact Hx.
Qed.

Lemma ParseStackInfo_ok n this stack_info_line :
  Module_ok n this -> string_ok stack_info_line ->
  exists r, ParseStackInfo this stack_info_line = Some r /\
            Module_ok (S n) r.2.
Proof.
  intros Hm Hline.
  assert (Hmono : Module_ok (S n) this) by (eapply Module_ok_mono; [|exact Hm]; lia).
  unfold ParseStackInfo.
  pose proof (Tokenize_ok (drop 6 stack_info_line) 12
                (string_ok_drop 6 _ Hline)) as Htk.
  destruct (Tokenize (drop 6 stack_info_line) 12) as [ok tokens].
  cbn [fst snd] in *.
  destruct ok; cbn [negb]; [|eexists; split; [reflexivity|exact Hmono]].
  destruct (bool_decide _); cbn [negb];
    [|eexists; split; [reflexivity|exact Hmono]].
  set (type := to_int (strtol (tokens !!! 1%nat) 16)).
  destruct (Z.ltb_spec type 0); cbn [orb];
    [eexists; split; [reflexivity|exact Hmono]|].
  destruct (Z.ltb_spec (Z.of_nat STACK_INFO_LAST - 1) type);
    [eexists; split; [reflexivity|exact Hmono]|].
  destruct Hm as (_ & _ & _ & _ & Hlen & Hslots).
  destruct Hmono as (H1 & H2 & H3 & H4 & H5 & H6).
  assert (Hslot : (Z.to_nat type < length (stack_info_ this))%nat)
    by (rewrite Hlen; unfold STACK_INFO_LAST in *; lia).
  match goal with
  | |- context [CRM_StoreRange ?c ?b ?sz ?e] =>
      destruct (CRM_StoreRange_ok n c b sz e) as (r & Hr & Hok)
  end.
  - apply Forall_lookup_total_lt; assumption.
  - apply strtoull_range. lia.
  - apply strtoull_range. lia.
  - cbn [opt_ok]. unfold StackFrameInfo_ok, new_StackFrameInfo.
    cbn [valid prolog_size epilog_size parameter_size saved_register_size
         local_size max_stack_size program_string].
    split; [unfold is_u32, VALID_ALL; lia|].
    do 6 (split; [apply u32_range|]).
    destruct (negb _); [apply token_ok; exact Htk | apply string_ok_nil].
  - rewrite Hr. eexists. split; [reflexivity|]. cbn [snd].
    split; [exact H1|]. split; [exact H2|]. split; [exact H3|].
    split; [exact H4|]. cbn [set_stack_info_ stack_info_].
    split; [rewrite length_insert; exact H5|].
    apply Forall_insert; assumption.
Qed.

Lemma Module_ok_set_functions n this functions :
  Module_ok n this ->
  stdmap_ok n (Range_ok (ptr_ok (Function_ok n))) functions ->
  Module_ok n (set_functions_ this functions).
Proof.
  intros (H1 & H2 & _ & H4 & H5 & H6) Hf.
  split; [exact H1|]. split; [exact H2|]. split; [exact Hf|].
  split; [exact H4|]. split; [exact H5 | exact H6].
Qed.

Lemma LoadMap_step_ok n st buffer :
  LoadState_ok n st -> string_ok buffer ->
  exists r, LoadMap_step st buffer = Some r /\ LoadState_ok (S n) r.2.
Proof.
  intros (Hm & Hf & Hk) Hbuf.
  assert (Hmono : Module_ok (S n) (ls_module st))
    by (eapply Module_ok_mono; [|exact Hm]; lia).
  assert (Hfmono : opt_ok (Function_ok (S n)) (cur_func st)).
  { destruct (cur_func st); [|exact I]. simpl in *.
    eapply Function_ok_mono; [|exact Hf]. lia. }
  unfold LoadMap_step.
  destruct (starts_with (list_byte_of_string "FILE ") buffer).
  { eexists. split; [reflexivity|]. cbn [snd ls_module cur_func cur_key].
    split; [apply ParseFile_ok; assumption|]. split; assumption. }
  destruct (starts_with (list_byte_of_string "STACK ") buffer).
  { destruct (ParseStackInfo_ok n _ buffer Hm Hbuf) as (r & -> & Hr).
    eexists. split; [reflexivity|]. cbn [snd ls_module cur_func cur_key].
    split; [exact Hr|]. split; assumption. }
  destruct (starts_with (list_byte_of_string "FUNC ") buffer).
  { destruct (ParseFunction buffer) as [f|] eqn:Ef.
    - pose proof (ParseFunction_ok n buffer f Hbuf Ef) as Hfn.
      pose proof (ParseFunction_ok (S n) buffer f Hbuf Ef) as HfSn.
      eexists. split; [reflexivity|]. cbn [snd ls_module cur_func cur_key].
      split; [|split; [exact HfSn|]].
      + apply Module_ok_set_functions; [exact Hmono|].
        destruct Hm as (_ & _ & H3 & _).
        assert (H3' : stdmap_ok n (Range_ok (ptr_ok (Function_ok (S n))))
                        (functions_ (ls_module st))).
        { eapply stdmap_ok_mono; [reflexivity| |exact H3]. intros k r.
          apply Range_ok_impl. intros e. apply ptr_ok_impl. intros g.
          apply Function_ok_mono. lia. }
        apply RangeMap_StoreRange_ok; [exact H3'| | |exact HfSn];
          apply Hfn.
      + unfold RangeMap_StoreRange.
        destruct Hfn as (_ & Ha & Hs & _). unfold is_u64 in *.
        destruct (Z.eqb_spec (Function_size f) 0); cbn [orb fst cur_key];
          [exact I|].
        destruct (Z.leb_spec (2 ^ 64) (Function_address f + Function_size f));
          cbn [fst cur_key]; [exact I|].
        destruct (existsb _ _); cbn [fst cur_key cur_func]; [exact I|]. lia.
    - eexists. split; [reflexivity|]. cbn [snd ls_module cur_func cur_key].
      split; [exact Hmono|]. split; exact I. }
  destruct (starts_with (list_byte_of_string "PUBLIC ") buffer).
  { eexists. split; [reflexivity|]. cbn [snd ls_module cur_func cur_key].
    split; [apply ParsePublicSymbol_ok; assumption|]. split; exact I. }
  destruct (starts_with (list_byte_of_string "MODULE ") buffer).
  { eexists. split; [reflexivity|]. cbn [snd].
    split; [exact Hmono|]. split; [exact Hfmono|]. exact Hk. }
  destruct (cur_func st) as [f|] eqn:Ecur.
  2:{ eexists. split; [reflexivity|]. cbn [snd].
      split; [exact Hmono|]. rewrite Ecur. split; [exact I|exact Hk]. }
  destruct (ParseLine buffer) as [line|] eqn:El.
  2:{ eexists. split; [reflexivity|]. cbn [snd].
      split; [exact Hmono|]. rewrite Ecur. split; [exact Hfmono|exact Hk]. }
  pose proof (ParseLine_ok buffer line El) as Hline.
  cbn [opt_ok] in Hf, Hfmono.
  assert (Hf' : Function_ok (S n)
                  (set_lines f (RangeMap_StoreRange (Function_lines f)
                                  (Line_address line) (Line_size line)
                                  (Some line)).2)).
  { destruct Hf as (F1 & F2 & F3 & F4 & F5).
    split; [exact F1|]. split; [exact F2|]. split; [exact F3|].
    split; [exact F4|]. cbn [set_lines Function_lines].
    apply RangeMap_StoreRange_ok; [exact F5| | |exact Hline]; apply Hline. }
  eexists. split; [reflexivity|]. cbn [snd ls_module cur_func cur_key].
  split; [|split; [exact Hf'|]].
  - apply Module_ok_set_functions; [exact Hmono|].
    destruct (cur_key st) as [k|]; [|apply Hmono].
    destruct Hmono as (_ & _ & (Hs & Hl & Hfa) & _).
    split; [apply sorted_above_update; exact Hs|].
    split; [rewrite length_map_update; exact Hl|].
    apply Forall_map_update; [|exact Hfa]. cbn [fst snd].
    split; [lia|]. unfold Range_ok. cbn [Range_base_ Range_entry_ ptr_ok].
    split; [tauto|]. split; [tauto|exact Hf'].
  - destruct (cur_key st) as [k|]; [|exact I]. cbn [set_lines Function_address].
    exact Hk.
Qed.

(** *** The buffers of [fgets] *)

Lemma fgets_chunk_length n f :
  (length (fgets_chunk n f).1 <= n)%nat /\
  (length (fgets_chunk n f).2 <= length f)%nat /\
  (n <> 0%nat -> f <> [] -> length (fgets_chunk n f).2 < length f)%nat.
Proof.
  revert f. induction n as [|n IH]; intros f.
  - simpl. repeat split; try lia.
  - destruct f as [|b f]; simpl.
    + repeat split; try lia. congruence.
    + destruct (Byte.eqb b x0a); simpl.
      * repeat split; lia.
      * destruct (IH f) as (H1 & H2 & _). repeat split; lia.
Qed.

Lemma read_buffers_ok fuel f :
  Forall (fun b => (length b <= BUFFER_SIZE)%nat) (read_buffers fuel f) /\
  (length (read_buffers fuel f) <= length f)%nat.
Proof.
  revert f. induction fuel as [|fuel IH]; intros f; cbn [read_buffers].
  - split; [constructor | cbn [length]; lia].
  - unfold fgets.
    destruct f as [|b f]; [split; [constructor | cbn [length]; lia]|].
    cbn [fst snd].
    set (r := fgets_chunk (BUFFER_SIZE - 1) (b :: f)).
    destruct (fgets_chunk_length (BUFFER_SIZE - 1) (b :: f)) as (H1 & H2 & H3).
    fold r in H1, H2, H3.
    assert (H3' : (length r.2 < length (b :: f))%nat).
    { apply H3; [|discriminate]. unfold BUFFER_SIZE. lia. }
    destruct (IH r.2) as [Hf Hl]. split.
    + constructor; [lia | exact Hf].
    + cbn [length] in *. lia.
Qed.

(** [length f] levels of fuel are enough: more fuel reads the same
    buffers, and the buffers together are the whole file. *)
Lemma read_buffers_fuel fuel f :
  (length f <= fuel)%nat ->
  read_buffers fuel f = read_buffers (length f) f.
Proof.
  revert fuel. induction f as [f IH] using (induction_ltof1 _ (@length byte)).
  unfold ltof in IH. intros fuel Hfuel.
  destruct f as [|b f]; [destruct fuel; reflexivity|].
  destruct fuel as [|fuel]; [cbn [length] in Hfuel; lia|].
  cbn [length read_buffers fgets]. f_equal.
  destruct (fgets_chunk_length (BUFFER_SIZE - 1) (b :: f)) as (_ & H2 & H3).
  assert (H3' : (length (fgets_chunk (BUFFER_SIZE - 1) (b :: f)).2
                 < length (b :: f))%nat).
  { apply H3; [|discriminate]. unfold BUFFER_SIZE. lia. }
  cbn [length] in Hfuel, H3'.
  rewrite (IH _ H3' fuel) by lia.
  rewrite (IH _ H3' (length f)) by lia. reflexivity.
Qed.

Lemma fgets_chunk_app n f : (fgets_chunk n f).1 ++ (fgets_chunk n f).2 = f.
Proof.
  revert f. induction n as [|n IH]; intros f; [reflexivity|].
  destruct f as [|b f]; [reflexivity|]. simpl.
  destruct (Byte.eqb b x0a); simpl; [reflexivity|]. rewrite IH. reflexivity.
Qed.

Lemma read_buffers_concat f : concat (read_buffers (length f) f) = f.
Proof.
  induction f as [f IH] using (induction_ltof1 _ (@length byte)).
  unfold ltof in IH.
  destruct f as [|b f]; [reflexivity|].
  cbn [length read_buffers fgets concat].
  destruct (fgets_chunk_length (BUFFER_SIZE - 1) (b :: f)) as (_ & H2 & H3).
  assert (H3' : (length (fgets_chunk (BUFFER_SIZE - 1) (b :: f)).2
                 < length (b :: f))%nat).
  { apply H3; [|discriminate]. unfold BUFFER_SIZE. lia. }
  cbn [length] in H3'.
  rewrite (read_buffers_fuel (length f)) by lia.
  rewrite (IH _ H3'). apply fgets_chunk_app.
Qed.

Lemma LoadMap_loop_ok buffers :
  Forall (fun b => (length b <= BUFFER_SIZE)%nat) buffers ->
  forall n st, LoadState_ok n st ->
  exists r, LoadMap_loop buffers st = Some r /\
            LoadState_ok (n + length buffers) r.2.
Proof.
  induction 1 as [|buffer buffers Hb Hbs IH]; intros n st Hst.
  - eexists. split; [reflexivity|]. cbn [snd length].
    rewrite Nat.add_0_r. exact Hst.
  - cbn [LoadMap_loop].
    assert (Hbuf : string_ok (until_nul buffer)).
    { split; [apply nul_free_until_nul|].
      pose proof (length_until_nul buffer). lia. }
    destruct (LoadMap_step_ok n st _ Hst Hbuf) as ([ok st'] & -> & Hst').
    cbn [snd] in Hst'. destruct ok.
    + destruct (IH (S n) st' Hst') as (r & -> & Hr).
      eexists. split; [reflexivity|]. cbn [length].
      replace (n + S (length buffers))%nat with (S n + length buffers)%nat by lia.
      exact Hr.
    + eexists. split; [reflexivity|]. cbn [snd length].
      destruct Hst' as (Hm & Hf & Hk). split; [|split].
      * eapply Module_ok_mono; [|exact Hm]. lia.
      * destruct (cur_func st'); [|exact I]. simpl in *.
        eapply Function_ok_mono; [|exact Hf]. lia.
      * exact Hk.
Qed.

Lemma new_Module_ok name : Module_ok 0 (new_Module name).
Proof.
  unfold new_Module, Module_ok.
  cbn [files_ functions_ public_symbols_ stack_info_].
  split; [rewrite map_size_empty; lia|]. split; [apply map_Forall_empty|].
  split; [apply stdmap_ok_nil|]. split; [apply stdmap_ok_nil|].
  split; [reflexivity|].
  unfold STACK_INFO_LAST. cbn [replicate].
  repeat constructor; unfold is_u64; simpl; lia.
Qed.

(** [LoadMap] on a new module always returns, and what it builds is well
    formed, with no more elements in any map than the file has lines. *)
Lemma LoadMap_ok fs name map_file :
  exists ok m,
    LoadMap fs (new_Module name) map_file = Some (ok, m) /\
    Module_ok (match fs !! map_file with
               | Some f => length (file_buffers f)
               | None => 0
               end) m.
Proof.
  unfold LoadMap. destruct (fs !! map_file) as [f|].
  - destruct (read_buffers_ok (length f) f) as [Hbufs Hlen].
    destruct (LoadMap_loop_ok _ Hbufs 0%nat (mkLoadState (new_Module name) None None))
      as ([ok st] & Hloop & Hst).
    + split; [apply new_Module_ok|]. split; exact I.
    + unfold file_buffers. rewrite Hloop.
      exists ok, (ls_module st). split; [reflexivity|].
      destruct Hst as (Hm & _). exact Hm.
  - exists false, (new_Module name). split; [reflexivity|]. apply new_Module_ok.
Qed.

Lemma length_file_buffers f : (length (file_buffers f) <= length f)%nat.
Proof. apply read_buffers_ok. Qed.

Lemma LoadMap_wf fs name map_file f ok m :
  fs !! map_file = Some f ->
  Z.of_nat (length (file_buffers f)) < 2 ^ 32 ->
  LoadMap fs (new_Module name) map_file = Some (ok, m) ->
  Module_wf m.
Proof.
  intros Hf Hlen Hload.
  destruct (LoadMap_ok fs name map_file) as (ok' & m' & Hload' & Hm).
  rewrite Hload in Hload'. injection Hload' as <- <-.
  rewrite Hf in Hm. eexists. split; [exact Hlen | exact Hm].
Qed.

(** ** C1: the round trip through the codec *)



(** [ModuleRoundTripTest] passes on every such file. *)
Lemma ModuleRoundTripTest_passes fs map_file S m :
  fs !! map_file = Some S ->
  Z.of_nat (length (file_buffers S)) < 2 ^ 32 ->
  LoadMap fs (new_Module "test") map_file = Some (true, m) ->
  ModuleRoundTripTest fs map_file = Some true.
Proof.
  intros HS Hlen Hload.
  pose proof (LoadMap_wf fs "test" map_file S true m HS Hlen Hload) as Hwf.
  unfold ModuleRoundTripTest. rewrite Hload.
  destruct Hwf as (n & Hn & Hm).
  rewrite (Module_Equals_refl n m Hm). cbn [negb].
  unfold Serialize, ModuleSerializer_of_ostream. cbn [outstream_ instream_ fst snd negb].
  rewrite drop_nil, app_nil_r.
  rewrite (Deserialize_Write_Module "test" m) by (exists n; split; assumption).
  rewrite Module_Equals_renamed, (Module_Equals_refl n m Hm). reflexivity.
Qed.

(** The empty file and the sample files pass the test; the empty file
    loads into the empty module and comes back as the empty module. *)
Example round_trip_samples :
  ModuleRoundTripTest sample_fs "empty.sym" = Some true /\
  ModuleRoundTripTest sample_fs "function.sym" = Some true /\
  ModuleRoundTripTest sample_fs "public.sym" = Some true /\
  ModuleRoundTripTest sample_fs "stack_other.sym" = Some true /\
  loaded "empty.sym" = new_Module "test" /\
  Deserialize (ModuleSerializer_of_istream (Write_Module (new_Module "test")))
    (new_Module "test") = Some (true, new_Module "test").
Proof. repeat split; vm_compute; reflexivity. Qed.

(** *** Beyond 2^32 elements the count written for a map wraps *)

Lemma hex_digit_spec d :
  0 <= d < 16 -> word_char (hex_digit d) /\ digit_of (hex_digit d) = Some d.
Proof.
  intros Hd. assert (Hn : d = Z.of_nat (Z.to_nat d)) by lia.
  unfold hex_digit. rewrite Hn at 3.
  assert (Hlt : (Z.to_nat d < 16)%nat) by lia.
  generalize dependent (Z.to_nat d). intros n _ Hlt.
  do 16 (destruct n as [|n]; [vm_compute; repeat split; reflexivity|]).
  lia.
Qed.

Lemma hex_digits_spec n : forall k acc,
  exists w, hex_digits n k acc = w ++ acc /\ length w = n /\ Forall word_char w.
Proof.
  induction n as [|n IH]; intros k acc.
  - exists []. repeat split. constructor.
  - cbn [hex_digits]. destruct (IH (k / 16) (hex_digit (k mod 16) :: acc))
      as (w & Hw & Hl & Hf).
    exists (w ++ [hex_digit (k mod 16)]). rewrite Hw, <- app_assoc.
    split; [reflexivity|]. split; [rewrite length_app; simpl; lia|].
    apply Forall_app. split; [exact Hf|]. constructor; [|constructor].
    apply hex_digit_spec. apply Z.mod_pos_bound. lia.
Qed.










Lemma fgets_chunk_line n (l : list byte) rest :
  Forall (fun c => Byte.eqb c x0a = false) l -> (length l < n)%nat ->
  fgets_chunk n (l ++ x0a :: rest) = (l ++ [x0a], rest).
Proof.
  intros Hl. revert n. induction Hl as [|c l Hc Hl IH]; intros n Hn.
  - destruct n; [simpl in Hn; lia|]. reflexivity.
  - destruct n; [simpl in Hn; lia|]. cbn [app fgets_chunk]. rewrite Hc.
    rewrite IH by (simpl in Hn; lia). reflexivity.
Qed.

Lemma file_buffers_line (l : list byte) rest :
  Forall (fun c => Byte.eqb c x0a = false) l ->
  (length l < BUFFER_SIZE - 1)%nat ->
  file_buffers ((l ++ [x0a]) ++ rest) = (l ++ [x0a]) :: file_buffers rest.
Proof.
  intros Hl Hlen. unfold file_buffers. rewrite <- app_assoc. cbn [app].
  destruct (l ++ x0a :: rest) as [|b f] eqn:Ef; [destruct l; discriminate|].
  cbn [length read_buffers fgets]. rewrite <- Ef.
  rewrite (fgets_chunk_line _ l rest Hl Hlen). cbn [fst snd]. f_equal.
  apply read_buffers_fuel.
  assert (Hf : length (b :: f) = length (l ++ x0a :: rest)) by (rewrite Ef; reflexivity).
  rewrite length_app in Hf. cbn [length] in Hf. lia.
Qed.

Lemma public_record_line k :
  exists l, public_record k = l ++ [x0a] /\
            Forall (fun c => Byte.eqb c x0a = false) l /\ length l = 20%nat.
Proof.
  destruct (hex_digits_spec 9 k []) as (w & Hw & Hlen & Hf).
  rewrite app_nil_r in Hw.
  exists (list_byte_of_string "PUBLIC " ++ w ++ list_byte_of_string " 0 f").
  split; [|split].
  - unfold public_record. rewrite Hw, <- !app_assoc. reflexivity.
  - apply Forall_app. split; [repeat constructor|].
    apply Forall_app. split; [|repeat constructor].
    eapply Forall_impl; [exact Hf|]. intros b Hb. apply Hb.
  - rewrite !length_app, Hlen. reflexivity.
Qed.

Lemma file_buffers_public_records n : forall start,
  file_buffers (flat_map public_record (count_from start n))
  = map public_record (count_from start n).
Proof.
  induction n as [|n IH]; intros start; [reflexivity|].
  cbn [count_from flat_map map].
  destruct (public_record_line start) as (l & Hrec & Hl & Hlen).
  rewrite Hrec at 1. rewrite file_buffers_line.
  - rewrite IH, Hrec. reflexivity.
  - exact Hl.
  - rewrite Hlen. unfold BUFFER_SIZE. lia.
Qed.


Lemma length_count_from n : forall start, length (count_from start n) = n.
Proof. induction n as [|n IH]; intros start; simpl; [reflexivity|]. rewrite IH. reflexivity. Qed.






(** The file of the counterexample has exactly 2^32 lines. *)
Lemma huge_file_lines :
  Z.of_nat (length (file_buffers (public_records (Z.to_nat (2 ^ 32))))) = 2 ^ 32.
Proof.
  unfold public_records.
  rewrite file_buffers_public_records, length_map, length_count_from.
  apply Z2Nat.id. lia.
Qed.

(** ** [LookupAddress] on well-formed modules *)

Lemma lower_bound_In {V} k (m : stdmap V) kv :
  lower_bound k m = Some kv -> In kv m.
Proof.
  induction m as [|[k' v] m IH]; simpl; [discriminate|].
  destruct (k' <? k); [intros; right; auto | intros [= <-]; left; reflexivity].
Qed.

Lemma before_upper_bound_In {V} k (m : stdmap V) kv :
  before_upper_bound k m = Some kv -> In kv m.
Proof.
  revert kv. induction m as [|[k' v] m IH]; intros kv; simpl; [discriminate|].
  destruct (k' <=? k); [|discriminate].
  destruct (before_upper_bound k m) as [r|].
  - intros [= <-]. right. apply IH. reflexivity.
  - intros [= <-]. left. reflexivity.
Qed.

Lemma nearest_below_In {E} address (m : RangeMap E) best kr :
  nearest_below address m best = Some kr -> In kr m \/ best = Some kr.
Proof.
  revert best. induction m as [|[high r] m IH]; intros best; simpl.
  - intros ->. right. reflexivity.
  - intros Hn. apply IH in Hn. destruct Hn as [Hin|Hbest]; [left; right; exact Hin|].
    destruct (_ && _); [left; left; congruence | right; exact Hbest].
Qed.

(** What [RetrieveNearestRange] yields from a well-formed map: a set
    pointer, and a range that ends within the address space. *)
Lemma RetrieveNearestRange_ok {E} n (P : E -> Prop) (m : RangeMap E)
    address entry base size :
  stdmap_ok n (Range_ok P) m ->
  RangeMap_RetrieveNearestRange m address = Some (entry, base, size) ->
  P entry /\ 0 <= base /\ 0 < size /\ base + size < 2 ^ 64.
Proof.
  intros (_ & _ & Hf). unfold RangeMap_RetrieveNearestRange.
  destruct (nearest_below address m None) as [[high r]|] eqn:En; [|discriminate].
  intros [= <- <- <-].
  apply nearest_below_In in En. destruct En as [Hin|]; [|discriminate].
  rewrite Forall_forall in Hf. apply list_elem_of_In in Hin.
  destruct (Hf _ Hin) as (_ & Hb & Hh & He). cbn [fst snd] in *.
  rewrite u64_small by (unfold is_u64; lia). repeat split; try lia. exact He.
Qed.

Lemma RetrieveRange_ok {E} n (P : E -> Prop) (m : RangeMap E)
    address entry base size :
  stdmap_ok n (Range_ok P) m ->
  RangeMap_RetrieveRange m address = Some (entry, base, size) -> P entry.
Proof.
  intros (_ & _ & Hf). unfold RangeMap_RetrieveRange.
  destruct (lower_bound address m) as [[high r]|] eqn:El; [|discriminate].
  destruct (address <? Range_base_ r); [discriminate|]. intros [= <- <- <-].
  apply lower_bound_In in El.
  rewrite Forall_forall in Hf. apply list_elem_of_In in El.
  destruct (Hf _ El) as (_ & _ & _ & He). exact He.
Qed.

Lemma AddressMap_Retrieve_ok {E} n (P : Z -> E -> Prop) (m : AddressMap E)
    address entry key :
  stdmap_ok n P m ->
  AddressMap_Retrieve m address = Some (entry, key) -> P key entry.
Proof.
  intros (_ & _ & Hf). unfold AddressMap_Retrieve.
  destruct (before_upper_bound address m) as [[k e]|] eqn:Eb; [|discriminate].
  intros [= <- <-]. apply before_upper_bound_In in Eb.
  rewrite Forall_forall in Hf. apply list_elem_of_In in Eb.
  destruct (Hf _ Eb) as (_ & He). exact He.
Qed.

Lemma CRM_RetrieveRange_eq b e m address :
  CRM_RetrieveRange (mkCRM b e m) address
  = match m with
    | None => Some None
    | Some children =>
        retrieve_in_child (fun ch => CRM_RetrieveRange ch address)
          address children
    end.
Proof. destruct m; reflexivity. Qed.

Lemma CRM_RetrieveRange_defined n c address :
  ContainedRangeMap_ok n c -> exists r, CRM_RetrieveRange c address = Some r.
Proof.
  induction c as [b e|b e children IH] using ContainedRangeMap_induction;
    intros Hok; rewrite CRM_RetrieveRange_eq; [eauto|].
  apply ContainedRangeMap_ok_node in Hok.
  destruct Hok as (_ & _ & _ & _ & Hc).
  induction children as [|[k oc] l IHl]; [simpl; eauto|].
  apply Forall_cons in Hc. destruct Hc as [[_ Hch] Hc].
  apply Forall_cons in IH. destruct IH as [IHch IH].
  cbn [retrieve_in_child].
  destruct (k <? address); [apply IHl; assumption|].
  cbn [fst snd] in *. destruct oc as [ch|]; [|destruct Hch].
  destruct (address <? CRM_base_ ch); [eauto|].
  cbn [opt_ok ptr_ok] in *. destruct (IHch Hch) as (r & ->).
  destruct r; eauto.
Qed.

Lemma retrieve_stack_info_defined n this address :
  Module_ok n this -> exists r, retrieve_stack_info this address = Some r.
Proof.
  intros (_ & _ & _ & _ & Hlen & Hslots). unfold retrieve_stack_info.
  assert (H4 : ContainedRangeMap_ok n (stack_info_ this !!! STACK_INFO_FRAME_DATA))
    by (apply Forall_lookup_total_lt; [exact Hslots | rewrite Hlen; cbv; lia]).
  assert (H0 : ContainedRangeMap_ok n (stack_info_ this !!! STACK_INFO_FPO))
    by (apply Forall_lookup_total_lt; [exact Hslots | rewrite Hlen; cbv; lia]).
  destruct (CRM_RetrieveRange_defined n _ address H4) as (r4 & ->).
  destruct r4 as [r4|]; [eauto|].
  destruct (CRM_RetrieveRange_defined n _ address H0) as (r0 & ->).
  destruct r0; eauto.
Qed.

(** The entry that [resolve] hands to [LookupAddress] is a set pointer. *)
Lemma resolve_ok n this address :
  Module_ok n this ->
  match resolve this address with
  | FromFunction func _ _ => ptr_ok (Function_ok n) func
  | FromPublicSymbol public_symbol _ => ptr_ok PublicSymbol_ok public_symbol
  | NoSymbol => True
  end.
Proof.
  intros (_ & _ & Hfuncs & Hpubs & _). unfold resolve.
  destruct (RangeMap_RetrieveNearestRange (functions_ this) address)
    as [[[func fb] fs]|] eqn:En.
  - destruct (RetrieveNearestRange_ok n _ _ _ _ _ _ Hfuncs En) as (Hf & _).
    destruct ((fb <=? address) && (address <? u64 (fb + fs))); [exact Hf|].
    destruct (AddressMap_Retrieve (public_symbols_ this) address)
      as [[ps pa]|] eqn:Ep; [|exact I].
    pose proof (AddressMap_Retrieve_ok n _ _ _ _ _ Hpubs Ep) as Hp.
    destruct func; [|destruct Hf].
    destruct (u64 (fb + fs) <? pa); [exact Hp | exact I].
  - destruct (AddressMap_Retrieve (public_symbols_ this) address)
      as [[ps pa]|] eqn:Ep; [|exact I].
    exact (AddressMap_Retrieve_ok n _ _ _ _ _ Hpubs Ep).
Qed.

(** On a well-formed module [LookupAddress] dereferences no null
    pointer. *)
Lemma LookupAddress_defined n this frame :
  Module_ok n this -> is_Some (module frame) ->
  exists r, LookupAddress this frame = Some r.
Proof.
  intros Hm [cm Hcm]. unfold LookupAddress. rewrite Hcm.
  destruct (retrieve_stack_info_defined n this
              (u64 (instruction frame - base_address cm)) Hm) as (ri & ->).
  pose proof (resolve_ok n this (u64 (instruction frame - base_address cm)) Hm)
    as Hres.
  destruct (resolve this _) as [func fb fs|ps pa|]; [| |eauto].
  - destruct func as [func|]; [|destruct Hres]. cbn [ptr_ok] in Hres.
    destruct Hres as (_ & _ & _ & _ & Hlines).
    destruct (RangeMap_RetrieveRange (Function_lines func) _)
      as [[[line lb] ls]|] eqn:El; [|eauto].
    pose proof (RetrieveRange_ok n _ _ _ _ _ _ Hlines El) as Hl.
    destruct line; [eauto | destruct Hl].
  - destruct ps; [eauto | destruct Hres].
Qed.

(** ** C4, C5: functions and public symbols *)

(** In a loaded module every function range that [RetrieveNearestRange]
    yields has a set function pointer, is not empty and ends within the
    address space. *)
Lemma loaded_nearest_function fs name map_file m address func fbase fsize :
  LoadMap fs (new_Module name) map_file = Some (true, m) ->
  RangeMap_RetrieveNearestRange (functions_ m) address
    = Some (func, fbase, fsize) ->
  is_Some func /\ 0 < fsize /\ is_u64 (fbase + fsize).
Proof.
  intros Hload En.
  destruct (LoadMap_ok fs name map_file) as (ok & m' & Hload' & Hm).
  rewrite Hload in Hload'. injection Hload' as <- <-.
  destruct Hm as (_ & _ & Hfuncs & _).
  destruct (RetrieveNearestRange_ok _ _ _ _ _ _ _ Hfuncs En)
    as (Hf & Hb & Hs & Hend).
  split; [destruct func; [eauto | destruct Hf]|].
  split; [exact Hs | unfold is_u64; lia].
Qed.

(** C4.  In [LookupAddress], when a public symbol at [public_address]
    serves the address, it is the symbol that [Retrieve] finds at or
    below the address, and for the nearest function at or below the
    address, if there is one, with range [(fbase, fsize)]:
    [public_address] is greater than the 64-bit sum [fbase + fsize], and
    when that range ends within the address space, as every range of a
    loaded module does, the address is not inside the function and
    [public_address > fbase + fsize].  A symbol at or below
    [fbase + fsize] is never selected. *)
Theorem public_symbol_only_above_nearest_function
    m address public_symbol public_address :
  resolve m address = FromPublicSymbol public_symbol public_address ->
  AddressMap_Retrieve (public_symbols_ m) address
    = Some (public_symbol, public_address) /\
  forall func fbase fsize,
    RangeMap_RetrieveNearestRange (functions_ m) address
      = Some (Some func, fbase, fsize) ->
    u64 (fbase + fsize) < public_address /\
    (is_u64 (fbase + fsize) ->
     ~ (fbase <= address < fbase + fsize) /\ public_address > fbase + fsize).
Proof.
  unfold resolve.
  destruct (RangeMap_RetrieveNearestRange (functions_ m) address)
    as [[[func fb] fs']|] eqn:En.
  - destruct (Z.leb_spec fb address); cbn [andb].
    + destruct (Z.ltb_spec address (u64 (fb + fs'))); [discriminate|].
      destruct (AddressMap_Retrieve (public_symbols_ m) address)
        as [[ps pa]|]; [|discriminate].
      destruct func as [func|].
      * destruct (Z.ltb_spec (u64 (fb + fs')) pa); [|discriminate].
        intros [= <- <-]. split; [reflexivity|].
        intros func' fbase fsize [= <- <- <-]. split; [assumption|].
        intros Hend. rewrite u64_small in * by assumption. split; lia.
      * intros [= <- <-]. split; [reflexivity|]. intros ? ? ? [=].
    + destruct (AddressMap_Retrieve (public_symbols_ m) address)
        as [[ps pa]|]; [|discriminate].
      destruct func as [func|].
      * destruct (Z.ltb_spec (u64 (fb + fs')) pa); [|discriminate].
        intros [= <- <-]. split; [reflexivity|].
        intros func' fbase fsize [= <- <- <-]. split; [assumption|].
        intros Hend. rewrite u64_small in * by assumption. split; lia.
      * intros [= <- <-]. split; [reflexivity|]. intros ? ? ? [=].
  - destruct (AddressMap_Retrieve (public_symbols_ m) address)
      as [[ps pa]|]; [|discriminate].
    intros [= <- <-]. split; [reflexivity|]. intros ? ? ? [=].
Qed.

Lemma public_symbol_only_above_nearest_function_witness :
  AddressMap_Retrieve (public_symbols_ (loaded "public.sym")) 0x210
    = Some (Some (mkPublicSymbol (list_byte_of_string "outside") 0x200 8), 0x200) /\
  forall func fbase fsize,
    RangeMap_RetrieveNearestRange (functions_ (loaded "public.sym")) 0x210
      = Some (Some func, fbase, fsize) ->
    u64 (fbase + fsize) < 0x200 /\
    (is_u64 (fbase + fsize) ->
     ~ (fbase <= 0x210 < fbase + fsize) /\ 0x200 > fbase + fsize).
Proof.
  apply (public_symbol_only_above_nearest_function (loaded "public.sym")).
  vm_compute. reflexivity.
Defined.

(** Scenario C of the spec: the public symbol below the function serves
    an address below the function, and no address past the function. *)
Example public_symbol_below_function :
  let m := match LoadMap {[ "c.sym"%string :=
                              text ["FUNC 100 20 0 f"; "PUBLIC 50 0 p"]%string ]}
                   (new_Module "test") "c.sym" with
           | Some (_, m) => m
           | None => new_Module "test"
           end in
  resolve m 0x80
    = FromPublicSymbol (Some (mkPublicSymbol (list_byte_of_string "p") 0x50 0)) 0x50 /\
  resolve m 0x130 = NoSymbol /\
  LookupAddress m (frame_at 0x1130) = Some (frame_at 0x1130, None).
Proof. repeat split; vm_compute; reflexivity. Qed.

(** C5.  In [LookupAddress], with [(fbase, fsize)] the range of the
    nearest function, the address is served by that function exactly
    when [fbase <= address < fbase + fsize], the sum being the 64-bit
    one; when the range ends within the address space, as every range of
    a loaded module does, that is the plain sum: the address [fbase] is
    inside (the range not being empty), the address [fbase + fsize] is
    not. *)
Theorem inside_function_iff m address func fbase fsize :
  RangeMap_RetrieveNearestRange (functions_ m) address
    = Some (func, fbase, fsize) ->
  (resolve m address = FromFunction func fbase fsize <->
   fbase <= address < u64 (fbase + fsize)) /\
  (is_u64 (fbase + fsize) ->
   (resolve m address = FromFunction func fbase fsize <->
    fbase <= address < fbase + fsize) /\
   ((exists f b s, resolve m address = FromFunction f b s) ->
    fbase <= address < fbase + fsize) /\
   (address = fbase -> 0 < fsize ->
    resolve m address = FromFunction func fbase fsize) /\
   (address = fbase + fsize ->
    forall f b s, resolve m address <> FromFunction f b s)).
Proof.
  intros En.
  assert (Hin : fbase <= address < u64 (fbase + fsize) ->
                resolve m address = FromFunction func fbase fsize).
  { intros Hr. unfold resolve. rewrite En.
    destruct (Z.leb_spec fbase address); [|lia].
    destruct (Z.ltb_spec address (u64 (fbase + fsize))); [|lia]. reflexivity. }
  assert (Hout : forall f b s, resolve m address = FromFunction f b s ->
                   fbase <= address < u64 (fbase + fsize)).
  { intros f b s. unfold resolve. rewrite En.
    destruct (Z.leb_spec fbase address); cbn [andb].
    - destruct (Z.ltb_spec address (u64 (fbase + fsize))); [lia|].
      destruct (AddressMap_Retrieve _ _) as [[ps pa]|]; [|discriminate].
      destruct func; [|discriminate]. destruct (_ <? pa); discriminate.
    - destruct (AddressMap_Retrieve _ _) as [[ps pa]|]; [|discriminate].
      destruct func; [|discriminate]. destruct (_ <? pa); discriminate. }
  split; [split; [apply Hout | apply Hin]|].
  intros Hend. rewrite u64_small in * by assumption.
  split; [split; [apply Hout | apply Hin]|].
  split; [intros (f & b & s & Hr); eapply Hout; exact Hr|].
  split; [intros -> Hs; apply Hin; lia|].
  intros -> f b s Hr. apply Hout in Hr. lia.
Qed.

Lemma inside_function_iff_witness :
  let foo :=
    Some (mkFunction (list_byte_of_string "foo") 0x100 0x20 4
            [(0x10f, mkRange 0x100 (Some (mkLine 0x100 0x10 1 42)));
             (0x11f, mkRange 0x110 (Some (mkLine 0x110 0x10 1 43)))]) in
  (resolve (loaded "function.sym") 0x100 = FromFunction foo 0x100 0x20 <->
   0x100 <= 0x100 < u64 (0x100 + 0x20)) /\
  (is_u64 (0x100 + 0x20) ->
   (resolve (loaded "function.sym") 0x100 = FromFunction foo 0x100 0x20 <->
    0x100 <= 0x100 < 0x100 + 0x20) /\
   ((exists f b s, resolve (loaded "function.sym") 0x100 = FromFunction f b s) ->
    0x100 <= 0x100 < 0x100 + 0x20) /\
   (0x100 = 0x100 -> 0 < 0x20 ->
    resolve (loaded "function.sym") 0x100 = FromFunction foo 0x100 0x20) /\
   (0x100 = 0x100 + 0x20 ->
    forall f b s, resolve (loaded "function.sym") 0x100 <> FromFunction f b s)).
Proof.
  apply (inside_function_iff (loaded "function.sym")).
  vm_compute. reflexivity.
Defined.

(** ** C6, C7: the stack frame info *)

Lemma LookupAddress_frame_info this frame code_module info r :
  module frame = Some code_module ->
  retrieve_stack_info this (u64 (instruction frame - base_address code_module))
    = Some (Some info) ->
  LookupAddress this frame = Some r -> r.2 = Some info.
Proof.
  intros Hcm Hri. unfold LookupAddress. rewrite Hcm, Hri.
  unfold CopyFrom.
  destruct (resolve this _) as [[func|] fb fs|[ps|] pa|];
    try discriminate; try (intros [= <-]; reflexivity).
  destruct (RangeMap_RetrieveRange (Function_lines func) _)
    as [[[[line|] lb] ls]|]; try discriminate; intros [= <-]; reflexivity.
Qed.

(** [LookupAddress] returns on every loaded module. *)
Lemma LookupAddress_loaded fs name map_file m frame :
  LoadMap fs (new_Module name) map_file = Some (true, m) ->
  is_Some (module frame) ->
  exists r, LookupAddress m frame = Some r.
Proof.
  intros Hload Hcm.
  destruct (LoadMap_ok fs name map_file) as (ok & m' & Hload' & Hm).
  rewrite Hload in Hload'. injection Hload' as <- <-.
  eapply LookupAddress_defined; eassumption.
Qed.

(** C6.  [LookupAddress] probes the [STACK_INFO_FRAME_DATA] slot first
    and the [STACK_INFO_FPO] slot only when that finds nothing: whenever
    it returns, the info it returns is the one these probes select (with
    records of both types over the address: the type-4 record, program
    string included), and on a loaded module it does return. *)
Theorem frame_data_before_fpo m frame code_module info :
  module frame = Some code_module ->
  probes_select m (u64 (instruction frame - base_address code_module)) info ->
  (forall frame' r,
      LookupAddress m frame = Some (frame', r) ->
      r = Some info /\ program_string <$> r = Some (program_string info)) /\
  (forall fs name map_file,
      LoadMap fs (new_Module name) map_file = Some (true, m) ->
      exists frame', LookupAddress m frame = Some (frame', Some info)).
Proof.
  intros Hcm Hsel.
  assert (Hri : retrieve_stack_info m
                  (u64 (instruction frame - base_address code_module))
                = Some (Some info)).
  { unfold retrieve_stack_info.
    destruct Hsel as [-> | [-> ->]]; reflexivity. }
  assert (Hret : forall frame' r, LookupAddress m frame = Some (frame', r) ->
                                  r = Some info).
  { intros frame' r Hr.
    exact (LookupAddress_frame_info m frame code_module info (frame', r)
             Hcm Hri Hr). }
  split.
  - intros frame' r Hr. rewrite (Hret frame' r Hr). split; reflexivity.
  - intros fs name map_file Hload.
    destruct (LookupAddress_loaded fs name map_file m frame Hload)
      as ([frame' r] & Hr); [rewrite Hcm; eauto|].
    exists frame'. rewrite Hr, (Hret frame' r Hr). reflexivity.
Qed.

Lemma frame_data_before_fpo_witness :
  let info :=
    mkStackFrameInfo VALID_ALL 1 2 3 4 5 6 false
      (list_byte_of_string "$eip 4 + ^ =") in
  (forall frame' r,
      LookupAddress (loaded "stack.sym") (frame_at 0x1104) = Some (frame', r) ->
      r = Some info /\ program_string <$> r = Some (program_string info)) /\
  (forall fs name map_file,
      LoadMap fs (new_Module name) map_file = Some (true, loaded "stack.sym") ->
      exists frame',
        LookupAddress (loaded "stack.sym") (frame_at 0x1104)
        = Some (frame', Some info)).
Proof.
  apply (frame_data_before_fpo (loaded "stack.sym") (frame_at 0x1104)
           (mkCodeModule 4096 "test")).
  - reflexivity.
  - left. vm_compute. reflexivity.
Defined.

(** The info that [LookupAddress] makes up from a [FUNC] or [PUBLIC]
    record. *)
Lemma finish_frame_info_None record_parameter_size :
  finish_frame_info None (to_int record_parameter_size)
  = Some (mkStackFrameInfo VALID_PARAMETER_SIZE 0 0 (u32 record_parameter_size)
            0 0 0 false []).
Proof.
  unfold finish_frame_info.
  cbn [default_StackFrameInfo valid prolog_size epilog_size
       saved_register_size local_size max_stack_size allocates_base_pointer
       program_string].
  rewrite u32_to_int_any. reflexivity.
Qed.

(** C7.  In [LookupAddress], when the probes of the stack info slots
    find no info for the address and a function or a public symbol
    serves it, then whenever [LookupAddress] returns, the info returned
    is a new [StackFrameInfo] in which only [parameter_size], taken from
    the [FUNC] or [PUBLIC] record, is set, with the [VALID_PARAMETER_SIZE]
    bit in the valid mask; on a loaded module it does return. *)
Theorem synthesized_parameter_size m frame code_module record_parameter_size :
  module frame = Some code_module ->
  let address := u64 (instruction frame - base_address code_module) in
  retrieve_stack_info m address = Some None ->
  served_parameter_size m address = Some record_parameter_size ->
  is_u32 record_parameter_size ->
  let info :=
    mkStackFrameInfo VALID_PARAMETER_SIZE 0 0 record_parameter_size
      0 0 0 false [] in
  parameter_size info = record_parameter_size /\
  Z.land (valid info) VALID_PARAMETER_SIZE = VALID_PARAMETER_SIZE /\
  (forall frame' r,
      LookupAddress m frame = Some (frame', r) -> r = Some info) /\
  (forall fs name map_file,
      LoadMap fs (new_Module name) map_file = Some (true, m) ->
      exists frame', LookupAddress m frame = Some (frame', Some info)).
Proof.
  intros Hcm address Hri Hserved Hu info.
  assert (Hret : forall frame' r, LookupAddress m frame = Some (frame', r) ->
                                  r = Some info).
  { intros frame' r. unfold LookupAddress. rewrite Hcm. fold address.
    rewrite Hri. unfold served_parameter_size in Hserved.
    destruct (resolve m address) as [[func|] fb fsz|[ps|] pa|];
      try discriminate; injection Hserved as <-;
      rewrite finish_frame_info_None, u32_small by assumption.
    - destruct (RangeMap_RetrieveRange (Function_lines func) address)
        as [[[[line|] lb] ls]|]; try discriminate; intros [= _ <-];
        reflexivity.
    - intros [= _ <-]. reflexivity. }
  split; [reflexivity|]. split; [reflexivity|]. split; [exact Hret|].
  intros fs name map_file Hload.
  destruct (LookupAddress_loaded fs name map_file m frame Hload)
    as ([frame' r] & Hr); [rewrite Hcm; eauto|].
  exists frame'. rewrite Hr, (Hret frame' r Hr). reflexivity.
Qed.

Lemma synthesized_parameter_size_witness :
  let info := mkStackFrameInfo VALID_PARAMETER_SIZE 0 0 4 0 0 0 false [] in
  parameter_size info = 4 /\
  Z.land (valid info) VALID_PARAMETER_SIZE = VALID_PARAMETER_SIZE /\
  (forall frame' r,
      LookupAddress (loaded "function.sym") (frame_at 0x1108)
      = Some (frame', r) -> r = Some info) /\
  (forall fs name map_file,
      LoadMap fs (new_Module name) map_file
      = Some (true, loaded "function.sym") ->
      exists frame',
        LookupAddress (loaded "function.sym") (frame_at 0x1108)
        = Some (frame', Some info)).
Proof.
  apply (synthesized_parameter_size (loaded "function.sym") (frame_at 0x1108)
           (mkCodeModule 4096 "test") 4).
  - reflexivity.
  - vm_compute. reflexivity.
  - vm_compute. reflexivity.
  - unfold is_u32. lia.
Defined.

(** Scenario D of the spec: with records of both types over 0x104, the
    program string returned is the one of the type-4 record; with a
    type-0 record alone, its info is returned. *)
Example lookup_prefers_frame_data :
  (program_string <$> (LookupAddress (loaded "stack.sym") (frame_at 0x1104)
                         ≫= snd))
  = Some (list_byte_of_string "$eip 4 + ^ =") /\
  (allocates_base_pointer <$>
     (LookupAddress (loaded "fpo.sym") (frame_at 0x1104) ≫= snd))
  = Some true.
Proof. split; vm_compute; reflexivity. Qed.

(** Scenarios A, B and C of the spec. *)
Example lookup_scenario_A :
  LookupAddress (loaded "function.sym") (frame_at 0x1108)
  = Some (mkStackFrame 0x1108 (Some (mkCodeModule 0x1000 "test"))
            (list_byte_of_string "foo") 0x1100
            (list_byte_of_string "/src/foo.c") 42 0x1100,
          Some (mkStackFrameInfo VALID_PARAMETER_SIZE 0 0 4 0 0 0 false [])).
Proof. vm_compute. reflexivity. Qed.

Example lookup_scenario_B :
  LookupAddress (loaded "public.sym") (frame_at 0x1210)
  = Some (mkStackFrame 0x1210 (Some (mkCodeModule 0x1000 "test"))
            (list_byte_of_string "outside") 0x1200 [] 0 0,
          Some (mkStackFrameInfo VALID_PARAMETER_SIZE 0 0 8 0 0 0 false [])).
Proof. vm_compute. reflexivity. Qed.

(** The two ends of a function: [fbase + fsize - 1] is inside, [fbase +
    fsize] is not. *)
Example function_end_is_exclusive :
  (exists f, resolve (loaded "function.sym") 0x11f = FromFunction f 0x100 0x20) /\
  resolve (loaded "function.sym") 0x120 = NoSymbol.
Proof. split; [eexists|]; vm_compute; reflexivity. Qed.

(** ** C8, C10 *)

(** C8.  [LoadModule] for a name already in the table returns [false]
    and leaves the resolver, its table included, as it was. *)
Theorem LoadModule_existing_name {C} `{SourceLineResolverModuleCacheInterface C}
    fs (this : BasicSourceLineResolver C) module_name map_file :
  is_Some (modules_ this !! module_name) ->
  LoadModule fs this module_name map_file = Some (false, this).
Proof. intros [m Hm]. unfold LoadModule. rewrite Hm. reflexivity. Qed.

Lemma LoadModule_existing_name_witness :
  LoadModule sample_fs
    (mkResolver {[ "test"%string := loaded "function.sym" ]}
       (Some (∅ : gmap string (list byte))))
    "test" "public.sym"
  = Some (false,
          mkResolver {[ "test"%string := loaded "function.sym" ]}
            (Some (∅ : gmap string (list byte)))).
Proof.
  apply LoadModule_existing_name.
  exists (loaded "function.sym"). vm_compute. reflexivity.
Defined.

(** C10.  [LookupAddress] reads the files, the functions, the public
    symbols and the [STACK_INFO_FPO] and [STACK_INFO_FRAME_DATA] slots
    only: two modules that agree on these give the same frame and the
    same info for every frame, whatever their other three slots hold. *)
Theorem LookupAddress_ignores_other_slots (m1 m2 : SymbolModule) frame :
  files_ m1 = files_ m2 ->
  functions_ m1 = functions_ m2 ->
  public_symbols_ m1 = public_symbols_ m2 ->
  stack_info_ m1 !!! STACK_INFO_FPO = stack_info_ m2 !!! STACK_INFO_FPO ->
  stack_info_ m1 !!! STACK_INFO_FRAME_DATA
    = stack_info_ m2 !!! STACK_INFO_FRAME_DATA ->
  LookupAddress m1 frame = LookupAddress m2 frame.
Proof.
  intros Hfiles Hfuncs Hpubs H0 H4.
  unfold LookupAddress, retrieve_stack_info, resolve.
  rewrite Hfiles, Hfuncs, Hpubs, H0, H4. reflexivity.
Qed.

Lemma LookupAddress_ignores_other_slots_witness :
  stack_info_ (loaded "stack.sym") !!! STACK_INFO_STANDARD
    <> stack_info_ (loaded "stack_other.sym") !!! STACK_INFO_STANDARD /\
  LookupAddress (loaded "stack.sym") (frame_at 0x1104)
  = LookupAddress (loaded "stack_other.sym") (frame_at 0x1104).
Proof.
  split.
  - vm_compute. discriminate.
  - apply LookupAddress_ignores_other_slots; vm_compute; reflexivity.
Defined.

(** ** C9: a source line before any function *)

Lemma starts_with_first p prefix c s :
  starts_with (p :: prefix) (c :: s) = true -> c = p.
Proof.
  simpl. intros Hs. apply andb_true_iff in Hs. destruct Hs as [Hp _].
  apply Byte.byte_dec_bl in Hp. congruence.
Qed.

(** A [MODULE] record is none of the records tested before it. *)
Lemma module_record_only buffer :
  has_prefix "MODULE " buffer = true ->
  has_prefix "FILE " buffer = false /\ has_prefix "STACK " buffer = false /\
  has_prefix "FUNC " buffer = false /\ has_prefix "PUBLIC " buffer = false.
Proof.
  unfold has_prefix. destruct (until_nul buffer) as [|c s]; [discriminate|].
  intros Hm. apply starts_with_first in Hm. subst c.
  repeat split; reflexivity.
Qed.

Lemma LoadMap_loop_orphan before record after :
  forallb header_record before = true ->
  line_record record = true ->
  forall st r,
    cur_func st = None ->
    LoadMap_loop (before ++ record :: after) st = Some r -> r.1 = false.
Proof.
  intros Hbefore Hrecord.
  induction before as [|buffer before IH]; intros st r Hcur.
  - cbn [app LoadMap_loop]. unfold LoadMap_step.
    unfold line_record, has_prefix in Hrecord.
    apply negb_true_iff in Hrecord.
    repeat (apply orb_false_iff in Hrecord; destruct Hrecord as [Hrecord ?]).
    rewrite Hrecord.
    repeat match goal with H : starts_with _ _ = false |- _ => rewrite H; clear H end.
    rewrite Hcur. intros [= <-]. reflexivity.
  - cbn [forallb] in Hbefore. apply andb_true_iff in Hbefore.
    destruct Hbefore as [Hhead Hbefore]. specialize (IH Hbefore).
    cbn [app LoadMap_loop]. unfold LoadMap_step.
    unfold header_record in Hhead.
    fold (has_prefix "FILE " buffer). fold (has_prefix "STACK " buffer).
    fold (has_prefix "FUNC " buffer). fold (has_prefix "PUBLIC " buffer).
    fold (has_prefix "MODULE " buffer).
    destruct (has_prefix "FILE " buffer) eqn:Efile.
    { destruct (ParseFile (ls_module st) (until_nul buffer)) as [ok m'].
      cbn [fst snd]. destruct ok; [|intros [= <-]; reflexivity].
      apply IH. exact Hcur. }
    destruct (has_prefix "STACK " buffer) eqn:Estack.
    { destruct (ParseStackInfo (ls_module st) (until_nul buffer))
        as [[ok m']|]; [|discriminate].
      cbn [fst snd]. destruct ok; [|intros [= <-]; reflexivity].
      apply IH. exact Hcur. }
    rewrite !orb_false_r in Hhead.
    destruct (module_record_only buffer Hhead) as (_ & _ & -> & ->).
    rewrite Hhead. apply IH. exact Hcur.
Qed.

(** C9 (as amended).  When the first buffer of the symbol file that is
    not a [MODULE], [FILE] or [STACK] record is a source line, and the
    resolver has no cached stream for the file, [LoadModule] returns
    [false] and leaves the resolver, its table included, as it was. *)
Theorem orphan_source_line_fails {C} `{SourceLineResolverModuleCacheInterface C}
    fs (this : BasicSourceLineResolver C) module_name map_file
    S before record after :
  fs !! map_file = Some S ->
  file_buffers S = before ++ record :: after ->
  forallb header_record before = true ->
  line_record record = true ->
  cached_stream this map_file = None ->
  (exists m, LoadMap fs (new_Module module_name) map_file = Some (false, m)) /\
  LoadModule fs this module_name map_file = Some (false, this).
Proof.
  intros HS Hbuffers Hbefore Hrecord Hcache.
  assert (Hload : exists m,
             LoadMap fs (new_Module module_name) map_file = Some (false, m)).
  { destruct (LoadMap_ok fs module_name map_file) as (ok & m & Hload & _).
    exists m. rewrite Hload. do 2 f_equal.
    unfold LoadMap in Hload. rewrite HS, Hbuffers in Hload.
    destruct (LoadMap_loop _ _) as [r|] eqn:Eloop; [|discriminate].
    injection Hload as <- _.
    eapply LoadMap_loop_orphan; [exact Hbefore | exact Hrecord | | exact Eloop].
    reflexivity. }
  split; [exact Hload|].
  unfold LoadModule. destruct (modules_ this !! module_name); [reflexivity|].
  rewrite Hcache. destruct Hload as [m ->]. reflexivity.
Qed.

Lemma orphan_source_line_fails_witness :
  let this := mkResolver (∅ : gmap string SymbolModule)
                (Some (∅ : gmap string (list byte))) in
  (exists m, LoadMap sample_fs (new_Module "test") "orphan.sym" = Some (false, m)) /\
  LoadModule sample_fs this "test" "orphan.sym" = Some (false, this).
Proof.
  apply (orphan_source_line_fails sample_fs _ "test" "orphan.sym" sym_orphan
           (take 2 (file_buffers sym_orphan)) (text ["100 10 42 1"]%string)
           (drop 3 (file_buffers sym_orphan))).
  - vm_compute. reflexivity.
  - vm_compute. reflexivity.
  - vm_compute. reflexivity.
  - vm_compute. reflexivity.
  - vm_compute. reflexivity.
Defined.

(** C9 (as stated) fails when the resolver holds a cached stream for the
    file: the first record of [orphan.sym] after its [MODULE] and [FILE]
    records is a source line, yet [LoadModule] does not read the symbol
    file; it registers what the stream holds and returns [true]. *)
Lemma cached_stream_hides_orphan_line :
  let this := mkResolver (∅ : gmap string SymbolModule)
                (Some ({[ "orphan.sym"%string :=
                            Write_Module (loaded "function.sym") ]}
                       : gmap string (list byte))) in
  sample_fs !! "orphan.sym"%string = Some sym_orphan /\
  file_buffers sym_orphan
    = take 2 (file_buffers sym_orphan) ++ text ["100 10 42 1"]%string
        :: drop 3 (file_buffers sym_orphan) /\
  forallb header_record (take 2 (file_buffers sym_orphan)) = true /\
  line_record (text ["100 10 42 1"]%string) = true /\
  LoadModule sample_fs this "test" "orphan.sym"
  = Some (true,
          mkResolver {[ "test"%string := loaded "function.sym" ]}
            (module_cache_ this)).
Proof. repeat split; vm_compute; reflexivity. Qed.

(** ** C2: what [Equals] compares *)

(** [Equals] on functions never looks at [parameter_size]. *)
Lemma Equals_Function_parameter_size a b pa pb :
  Equals_Function
    (mkFunction (Function_name a) (Function_address a) (Function_size a) pa
       (Function_lines a))
    (mkFunction (Function_name b) (Function_address b) (Function_size b) pb
       (Function_lines b))
  = Equals_Function a b.
Proof. reflexivity. Qed.

(** C2 (the code at the failing input).  The modules loaded from two
    symbol files that differ in the parameter size of one function alone
    differ in that parameter size, 4 against 8, and [Module::Equals]
    holds them equal. *)
Theorem Module_Equals_misses_parameter_size :
  LoadMap sample_fs (new_Module "test") "param4.sym"
    = Some (true, loaded "param4.sym") /\
  LoadMap sample_fs (new_Module "test") "param8.sym"
    = Some (true, loaded "param8.sym") /\
  functions_ (loaded "param4.sym")
    = [(0x11f, mkRange 0x100
                 (Some (mkFunction (list_byte_of_string "foo") 0x100 0x20 4 [])))] /\
  functions_ (loaded "param8.sym")
    = [(0x11f, mkRange 0x100
                 (Some (mkFunction (list_byte_of_string "foo") 0x100 0x20 8 [])))] /\
  Module_Equals (loaded "param4.sym") (loaded "param8.sym") = true.
Proof. repeat split; vm_compute; reflexivity. Qed.

(** The sibling comparison, on public symbols, does look at it. *)
Example Equals_PublicSymbol_sees_parameter_size :
  Equals_PublicSymbol (mkPublicSymbol (list_byte_of_string "foo") 0x100 4)
    (mkPublicSymbol (list_byte_of_string "foo") 0x100 8) = false.
Proof. vm_compute. reflexivity. Qed.

(** ** C3: a cached stream of another format version *)

(** [Deserialize] returns [false], and leaves the module alone, on a
    stream that starts with another format word. *)
Lemma Deserialize_version_mismatch stream format rest module :
  Read_u32 stream = Some (format, rest) -> format <> SERIALIZE_FORMAT ->
  Deserialize (ModuleSerializer_of_istream stream) module = Some (false, module).
Proof.
  intros Hread Hformat. unfold Deserialize. cbn [instream_ ModuleSerializer_of_istream].
  rewrite Hread. destruct (Z.eqb_spec format SERIALIZE_FORMAT); [contradiction|].
  reflexivity.
Qed.

(** C3 (the code at the failing input).  When the cached stream starts
    with a format word other than [SERIALIZE_FORMAT], [Deserialize]
    returns [false]; [LoadModule] does not look at that result: it does
    not read the symbol file, registers the module as [Deserialize] left
    it, empty, and returns [true]. *)
Theorem LoadModule_ignores_version_mismatch
    {C} `{SourceLineResolverModuleCacheInterface C}
    fs (this : BasicSourceLineResolver C) module_name map_file
    stream format rest :
  modules_ this !! module_name = None ->
  cached_stream this map_file = Some stream ->
  Read_u32 stream = Some (format, rest) ->
  format <> SERIALIZE_FORMAT ->
  Deserialize (ModuleSerializer_of_istream stream) (new_Module module_name)
    = Some (false, new_Module module_name) /\
  LoadModule fs this module_name map_file
    = Some (true,
            mkResolver (<[module_name := new_Module module_name]> (modules_ this))
              (module_cache_ this)).
Proof.
  intros Hfresh Hcache Hread Hformat.
  pose proof (Deserialize_version_mismatch stream format rest
                (new_Module module_name) Hread Hformat) as Hdes.
  split; [exact Hdes|].
  unfold LoadModule. rewrite Hfresh, Hcache, Hdes. reflexivity.
Qed.

Lemma LoadModule_ignores_version_mismatch_witness :
  let stale := Write_u32 2 ++ drop 4 (Write_Module (loaded "function.sym")) in
  let this := mkResolver (∅ : gmap string SymbolModule)
                (Some ({[ "function.sym"%string := stale ]}
                       : gmap string (list byte))) in
  Deserialize (ModuleSerializer_of_istream stale) (new_Module "test")
    = Some (false, new_Module "test") /\
  LoadModule sample_fs this "test" "function.sym"
    = Some (true,
            mkResolver (<["test"%string := new_Module "test"]> ∅)
              (module_cache_ this)).
Proof.
  intros stale this.
  apply (LoadModule_ignores_version_mismatch sample_fs this "test"
           "function.sym" stale 2 (drop 4 (Write_Module (loaded "function.sym")))).
  - reflexivity.
  - vm_compute. reflexivity.
  - vm_compute. reflexivity.
  - discriminate.
Defined.

(** The same symbol file, without a cache, loads into a module with a
    function. *)
Example LoadModule_parses_without_cache :
  LoadModule sample_fs
    (mkResolver (∅ : gmap string SymbolModule)
       (None : option (gmap string (list byte)))) "test" "function.sym"
  = Some (true,
          mkResolver {[ "test"%string := loaded "function.sym" ]} None).
Proof. vm_compute. reflexivity. Qed.
